(** * Double pendulum: derivative, energy check, projection and trail

    A shallow embedding of [simulations/double_pendulum.py].

    Numbers.  The script computes with numpy [float64] values.  They are
    idealised here as real numbers ([R]): rounding, overflow and NaN are
    outside the model, and [np.sin], [np.cos], [np.abs] are the real [sin],
    [cos], [Rabs].  Python [int] is [Z]; [//] on [int] is [Z.div] (both
    round towards minus infinity).

    Arrays.  A one-dimensional numpy array is a [list R]; the trajectory
    returned by [odeint] (shape N x 4) is a list of rows, each row a
    4-tuple.  Whole-array arithmetic is [map] over the rows. *)

From Stdlib Require Import String.
From Stdlib Require Import Reals Lra ZArith Lia List Bool Sorted.
Import ListNotations.

Open Scope R_scope.

(** ** Module-level constants *)

(** The names the script binds at module level and that [derive],
    [total_energy] and the energy check read. *)
Record Globals : Type := mkGlobals {
  L1 : R;
  L2 : R;
  m1 : R;
  m2 : R;
  g : R;
  EDRIFT : R
}.

(** [L1, L2 = 1, 1], [m1, m2 = 1, 1], [g = 9.81], [EDRIFT = 0.05]. *)
Definition module_globals : Globals :=
  mkGlobals 1 1 1 1 9.81 0.05.

(** A row [theta1, z1, theta2, z2]. *)
Definition State : Type := (R * R * R * R)%type.

(** [y0 = np.array([3*np.pi/7, 0, 3*np.pi/4, 0])]. *)
Definition y0 : State := (3 * PI / 7, 0, 3 * PI / 4, 0).

(** ** [derive] *)

(** [derive(y, t, L1, L2, m1, m2)]; [g] is read from the module globals,
    the other four parameters are arguments (they shadow the globals). *)
Definition derive (G : Globals) (y : State) (t : R) (L1 L2 m1 m2 : R) : State :=
  let '(theta_1, z1, theta_2, z2) := y in
  let c := cos (theta_1 - theta_2) in
  let s := sin (theta_1 - theta_2) in
  let theta1dot := z1 in
  let z1dot := (m2 * g G * sin theta_2 * c
                - m2 * s * (L1 * z1 ^ 2 * c + L2 * z2 ^ 2)
                - (m1 + m2) * g G * sin theta_1) / L1 / (m1 + m2 * s ^ 2) in
  let theta2dot := z2 in
  let z2dot := ((m1 + m2) * (L1 * z1 ^ 2 * s - g G * sin theta_2
                             + g G * sin theta_1 * c)
                + m2 * L2 * z2 ^ 2 * s * c) / L2 / (m1 + m2 * s ^ 2) in
  (theta1dot, z1dot, theta2dot, z2dot).

(** The expression [(m1 + m2 * s ** 2)] both quotients of [derive] divide
    by last. *)
Definition derive_denominator (y : State) (m1 m2 : R) : R :=
  let '(theta_1, _, theta_2, _) := y in
  m1 + m2 * sin (theta_1 - theta_2) ^ 2.

(** The numerators of [z1dot] and [z2dot], the expressions [derive] writes
    before [/ L1] and [/ L2]. *)
Definition z1dot_numerator (G : Globals) (y : State) (L1 L2 m1 m2 : R) : R :=
  let '(theta_1, z1, theta_2, z2) := y in
  let c := cos (theta_1 - theta_2) in
  let s := sin (theta_1 - theta_2) in
  m2 * g G * sin theta_2 * c
  - m2 * s * (L1 * z1 ^ 2 * c + L2 * z2 ^ 2)
  - (m1 + m2) * g G * sin theta_1.

Definition z2dot_numerator (G : Globals) (y : State) (L1 L2 m1 m2 : R) : R :=
  let '(theta_1, z1, theta_2, z2) := y in
  let c := cos (theta_1 - theta_2) in
  let s := sin (theta_1 - theta_2) in
  (m1 + m2) * (L1 * z1 ^ 2 * s - g G * sin theta_2 + g G * sin theta_1 * c)
  + m2 * L2 * z2 ^ 2 * s * c.

(** ** [total_energy] *)

(** The local [potential] of [total_energy]. *)
Definition potential (G : Globals) (y : State) : R :=
  let '(th1, th1d, th2, th2d) := y in
  - (m1 G + m2 G) * L1 G * g G * cos th1 - m2 G * L2 G * g G * cos th2.

(** The local [kinetic] of [total_energy]. *)
Definition kinetic (G : Globals) (y : State) : R :=
  let '(th1, th1d, th2, th2d) := y in
  0.5 * m1 G * (L1 G * th1d) ^ 2
  + 0.5 * m2 G * ((L1 G * th1d) ^ 2 + (L2 G * th2d) ^ 2
                  + 2 * L1 G * L2 G * th1d * th2d * cos (th1 - th2)).

(** [total_energy(y)] on one row; every parameter is a module global. *)
Definition total_energy (G : Globals) (y : State) : R :=
  potential G y + kinetic G y.

(** [total_energy(y)] on the whole trajectory: [y.T] unpacks into four
    columns and the arithmetic is element-wise, one energy per row. *)
Definition total_energy_rows (G : Globals) (y : list State) : list R :=
  map (total_energy G) y.

(** ** numpy helpers used at module level *)

(** Element-wise operations on one-dimensional arrays of equal length. *)
Definition np_zip (f : R -> R -> R) (a b : list R) : list R :=
  map (fun p => f (fst p) (snd p)) (combine a b).

(** [np.sum] of a one-dimensional array: one scalar. *)
Definition np_sum (a : list R) : R := fold_right Rplus 0 a.

(** [np.max] applied to the scalar [np.sum] returned: the scalar itself. *)
Definition np_max (x : R) : R := x.

(** Column [k] of the trajectory, [y[:, k]]. *)
Definition column0 (y : list State) : list R :=
  map (fun '(a, _, _, _) => a) y.
Definition column2 (y : list State) : list R :=
  map (fun '(_, _, c, _) => c) y.

(** ** The energy check and the projection (script lines 59 to 74) *)

(** A formatted message: the literal text of the format string and, for
    each [{}], the value handed to [format]. *)
Inductive Piece : Type :=
  | Text (s : string)
  | Value (v : R).

Definition Message : Type := list Piece.

(** ['Maximum energy drift of {} exceeded.'.format(EDRIFT)]. *)
Definition drift_message (G : Globals) : Message :=
  [Text "Maximum energy drift of "; Value (EDRIFT G); Text " exceeded."].

(** The four arrays [x1, y1, x2, y2]. *)
Record Cartesian : Type := mkCartesian {
  x1 : list R;
  y1 : list R;
  x2 : list R;
  y2 : list R
}.

(** How the script leaves line 74: [sys.exit(msg)] with a string argument
    prints it on standard error and ends the process with status 1; or
    the four arrays are bound and the script goes on to the figure. *)
Inductive Outcome : Type :=
  | SystemExit (status : Z) (stderr : Message)
  | Continues (xy : Cartesian).

(** [np.sum(np.abs(total_energy(y) - E))], with [E = total_energy(y0)]. *)
Definition energy_drift (G : Globals) (y0 : State) (y : list State) : R :=
  let E := total_energy G y0 in
  np_sum (map Rabs (map (fun e => e - E) (total_energy_rows G y))).

(** Lines 68 to 74. *)
Definition cartesian (G : Globals) (y : list State) : Cartesian :=
  let theta_1 := column0 y in
  let theta_2 := column2 y in
  let x1 := map (fun th => L1 G * sin th) theta_1 in
  let y1 := map (fun th => - L1 G * cos th) theta_1 in
  let x2 := np_zip Rplus x1 (map (fun th => L2 G * sin th) theta_2) in
  let y2 := np_zip Rminus y1 (map (fun th => L2 G * cos th) theta_2) in
  mkCartesian x1 y1 x2 y2.

(** The bob positions as pairs, [bob1[i] = (x1[i], y1[i])] and
    [bob2[i] = (x2[i], y2[i])]. *)
Definition bob1 (xy : Cartesian) : list (R * R) := combine (x1 xy) (y1 xy).
Definition bob2 (xy : Cartesian) : list (R * R) := combine (x2 xy) (y2 xy).

(** Lines 59 to 74, from the integrated trajectory [y]. *)
Definition after_integration (G : Globals) (y0 : State) (y : list State)
  : Outcome :=
  if Rgt_dec (np_max (energy_drift G y0 y)) (EDRIFT G)
  then SystemExit 1 (drift_message G)
  else Continues (cartesian G y).

(** [scipy.integrate.odeint]: right-hand side, initial row, time grid. *)
Definition Odeint : Type := (State -> R -> State) -> State -> list R -> list State.

(** Lines 57 to 74; the solver is the caller's. *)
Definition script (odeint : Odeint) (G : Globals) (y0 : State) (t : list R)
  : Outcome :=
  let y := odeint (fun y t => derive G y t (L1 G) (L2 G) (m1 G) (m2 G)) y0 t in
  after_integration G y0 y.

(** ** [make_plot] *)

Open Scope Z_scope.

(** [trail_secs = 0.5] and [dt = 0.01]: [max_trail = int(trail_secs / dt)]
    is 50. *)
Definition max_trail : Z := 50.

(** Plotted bob circle radius, [r = 0.05]. *)
Definition r : R := 0.05%R.

(** [a[i]] for an [int] [i]: a negative index counts from the end, an
    index outside [-len, len) raises [IndexError] ([None]). *)
Definition np_getitem (a : list R) (i : Z) : option R :=
  let n := Z.of_nat (length a) in
  if i <? - n then None
  else if i <? 0 then nth_error a (Z.to_nat (i + n))
  else nth_error a (Z.to_nat i).

(** One bound of a slice [a[lo:hi]] on an array of length [n]: a negative
    bound counts from the end, and the result is clamped to [0, n]. *)
Definition slice_bound (n k : Z) : Z :=
  if k <? 0 then Z.max 0 (k + n) else Z.min k n.

(** [a[lo:hi]]. *)
Definition py_slice {A : Type} (a : list A) (lo hi : Z) : list A :=
  let n := Z.of_nat (length a) in
  let lo' := slice_bound n lo in
  let hi' := slice_bound n hi in
  firstn (Z.to_nat (hi' - lo')) (skipn (Z.to_nat lo') a).

(** [range(n)]. *)
Definition range (n : Z) : list Z := map Z.of_nat (seq 0 (Z.to_nat n)).

Inductive Colour : Type := Black | Blue | Red.

(** What a call leaves on the axes: [ax.plot(xs, ys, c=, alpha=)] and
    [ax.add_patch(Circle(centre, radius, fc=))]. *)
Inductive Artist : Type :=
  | Line2D (xs ys : list R) (c : Colour) (alpha : option R)
  | CirclePatch (centre : R * R) (radius : R) (fc : Colour).

(** The body of [for j in range(ns)], on the artists drawn so far. *)
Definition trail_body (ns s i : Z) (xy : Cartesian)
    (drawn : list Artist) (j : Z) : list Artist :=
  let imin := i - (ns - j) * s in
  if imin <? 0 then drawn
  else
    let imax := imin + s + 1 in
    let alpha := ((IZR j / IZR ns) ^ 2)%R in
    drawn ++ [Line2D (py_slice (x2 xy) imin imax) (py_slice (y2 xy) imin imax)
                     Red (Some alpha)].

(** What iteration [j] alone puts on the axes. *)
Definition drawn_at (ns s i : Z) (xy : Cartesian) (j : Z) : list Artist :=
  trail_body ns s i xy [] j.

(** Lines 109 to 119 of [make_plot], for a segment count [ns] and a window
    [max_trail]. *)
Definition trail (ns max_trail : Z) (xy : Cartesian) (i : Z)
    (drawn : list Artist) : list Artist :=
  let s := max_trail / ns in
  fold_left (trail_body ns s i xy) (range ns) drawn.

(** [make_plot(i)]: the artists on the axes after the call ([plt.cla()]
    empties them first), or [None] when indexing frame [i] raises. *)
Definition make_plot (xy : Cartesian) (i : Z) : option (list Artist) :=
  match np_getitem (x1 xy) i, np_getitem (x2 xy) i,
        np_getitem (y1 xy) i, np_getitem (y2 xy) i with
  | Some x1i, Some x2i, Some y1i, Some y2i =>
      let rods := Line2D [0%R; x1i; x2i] [0%R; y1i; y2i] Black None in
      let c0 := CirclePatch (0%R, 0%R) (r / 2)%R Black in
      let c1 := CirclePatch (x1i, y1i) r Blue in
      let c2 := CirclePatch (x2i, y2i) r Red in
      let ns := 20 in
      Some (trail ns max_trail xy i [rods; c0; c1; c2])
  | _, _, _, _ => None
  end.

(** ** The specification's reading of the projection and of the trail *)

(** A trail segment as the specification has it. *)
Record TrailSegment : Type := mkTrailSegment {
  points : list (R * R);
  seg_alpha : R
}.

(** [bob1[i] = (L1*sin(theta1[i]), -L1*cos(theta1[i]))]. *)
Definition bob1_spec (G : Globals) (st : State) : R * R :=
  let '(theta1, _, _, _) := st in
  (L1 G * sin theta1, - L1 G * cos theta1)%R.

(** [bob2[i] = bob1[i] + (L2*sin(theta2[i]), -L2*cos(theta2[i]))]. *)
Definition bob2_spec (G : Globals) (st : State) : R * R :=
  let '(_, _, theta2, _) := st in
  (fst (bob1_spec G st) + L2 G * sin theta2,
   snd (bob1_spec G st) + - L2 G * cos theta2)%R.

(** The trail as section 4.6 words it: for [j] in [0..ns-1], nothing when
    [imin < 0], else the points [bob2[imin:imax]] with [alpha = (j/ns)^2]. *)
Definition TrailWindower_spec (ns max_trail i : Z) (bob2 : list (R * R))
  : list TrailSegment :=
  let s := max_trail / ns in
  flat_map (fun j =>
              let imin := i - (ns - j) * s in
              if imin <? 0 then []
              else [mkTrailSegment (py_slice bob2 imin (imin + s + 1))
                                   ((IZR j / IZR ns) ^ 2)%R])
           (range ns).

(** The points and fade of a plotted line. *)
Definition segment_of (a : Artist) : option TrailSegment :=
  match a with
  | Line2D xs ys _ (Some alpha) => Some (mkTrailSegment (combine xs ys) alpha)
  | _ => None
  end.

(** [pts] is the run [l[lo], ..., l[hi]], both ends included and all of
    it inside [l]. *)
Definition covers {A : Type} (l pts : list A) (lo hi : Z) : Prop :=
  Z.of_nat (length pts) = hi - lo + 1 /\
  forall k : nat, (k < length pts)%nat ->
    nth_error pts k = nth_error l (Z.to_nat lo + k) /\
    nth_error pts k <> None.

Open Scope R_scope.

(** Section 4.1, with [c = cos(theta1-theta2)] and [s = sin(theta1-theta2)]. *)
Definition StateDerivative_spec (G : Globals) (st : State) : State :=
  let '(theta1, omega1, theta2, omega2) := st in
  let c := cos (theta1 - theta2) in
  let s := sin (theta1 - theta2) in
  (omega1,
   (m2 G * g G * sin theta2 * c
    - m2 G * s * (L1 G * omega1 ^ 2 * c + L2 G * omega2 ^ 2)
    - (m1 G + m2 G) * g G * sin theta1) / (L1 G * (m1 G + m2 G * s ^ 2)),
   omega2,
   ((m1 G + m2 G) * (L1 G * omega1 ^ 2 * s - g G * sin theta2
                     + g G * sin theta1 * c)
    + m2 G * L2 G * omega2 ^ 2 * s * c) / (L2 G * (m1 G + m2 G * s ^ 2))).

(** Section 4.2. *)
Definition potential_spec (G : Globals) (st : State) : R :=
  let '(theta1, omega1, theta2, omega2) := st in
  - (m1 G + m2 G) * L1 G * g G * cos theta1 - m2 G * L2 G * g G * cos theta2.

Definition kinetic_spec (G : Globals) (st : State) : R :=
  let '(theta1, omega1, theta2, omega2) := st in
  0.5 * m1 G * (L1 G * omega1) ^ 2
  + 0.5 * m2 G * ((L1 G * omega1) ^ 2 + (L2 G * omega2) ^ 2
                  + 2 * L1 G * L2 G * omega1 * omega2 * cos (theta1 - theta2)).

Definition EnergyFunction_spec (G : Globals) (st : State) : R :=
  potential_spec G st + kinetic_spec G st.

(** Section 4.4: [drift = sum over i of |EnergyTrace[i] - E0|]. *)
Definition drift_spec (G : Globals) (initial : State) (trajectory : list State)
  : R :=
  let E0 := EnergyFunction_spec G initial in
  fold_right (fun st acc => Rabs (EnergyFunction_spec G st - E0) + acc) 0
             trajectory.

(** The largest per-sample deviation, the bound the check does not use. *)
Definition max_deviation (G : Globals) (initial : State)
    (trajectory : list State) : R :=
  let E0 := EnergyFunction_spec G initial in
  fold_right (fun st acc => Rmax (Rabs (EnergyFunction_spec G st - E0)) acc) 0
             trajectory.

(** A message reports [v] when [v] is one of the values formatted into it. *)
Definition reports (msg : Message) (v : R) : Prop := In (Value v) msg.

(** Section 6 on a failed check: a non-zero status, and a message that
    reports the measured drift and the tolerance. *)
Definition failure_reports_drift (G : Globals) (initial : State)
    (y : list State) : Prop :=
  energy_drift G initial y > EDRIFT G ->
  exists status msg,
    after_integration G initial y = SystemExit status msg /\
    status <> 0%Z /\
    reports msg (energy_drift G initial y) /\
    reports msg (EDRIFT G).

(** The co-permutation of section 8: rod 1 and rod 2 exchanged, in the
    state and in the parameters. *)
Definition swap_state (st : State) : State :=
  let '(theta1, omega1, theta2, omega2) := st in
  (theta2, omega2, theta1, omega1).

Definition swap_params (G : Globals) : Globals :=
  mkGlobals (L2 G) (L1 G) (m2 G) (m1 G) (g G) (EDRIFT G).

(** What the co-permutation adds to the energy. *)
Definition swap_gap (G : Globals) (st : State) : R :=
  let '(theta1, omega1, theta2, omega2) := st in
  g G * (m2 G * L1 G * cos theta1 - m1 G * L2 G * cos theta2)
  + 0.5 * (m1 G * (L2 G * omega2) ^ 2 - m2 G * (L1 G * omega1) ^ 2)
  + (m1 G - m2 G) * L1 G * L2 G * omega1 * omega2 * cos (theta1 - theta2).

(** ** Sample inputs *)

(** The initial row with the first rod set moving at 1 rad/s. *)
Definition moving_row : State := (3 * PI / 7, 1, 3 * PI / 4, 0).

(** The initial row with the first rod set moving at 0.2 rad/s. *)
Definition slow_row : State := (3 * PI / 7, 0.2, 3 * PI / 4, 0).

(** Both rods hanging. *)
Definition hanging_row : State := (0, 0, 0, 0).

(** Fifty frames of the pendulum hanging at rest, projected. *)
Definition still_xy : Cartesian :=
  cartesian module_globals (repeat hanging_row 50).

(** First rod hanging, second rod upright, both still. *)
Definition folded_row : State := (0, 0, PI, 0).

(** ** The energy along the vector field *)

(** The partial derivatives of [total_energy] in its four arguments,
    in the order of the row: [theta1, z1, theta2, z2]. *)
Definition energy_gradient (G : Globals) (y : State) : State :=
  let '(th1, th1d, th2, th2d) := y in
  ((m1 G + m2 G) * L1 G * g G * sin th1
   - m2 G * L1 G * L2 G * th1d * th2d * sin (th1 - th2),
   (m1 G + m2 G) * L1 G ^ 2 * th1d
   + m2 G * L1 G * L2 G * th2d * cos (th1 - th2),
   m2 G * L2 G * g G * sin th2
   + m2 G * L1 G * L2 G * th1d * th2d * sin (th1 - th2),
   m2 G * L2 G ^ 2 * th2d
   + m2 G * L1 G * L2 G * th1d * cos (th1 - th2)).

(** The rate at which [total_energy] changes along [derive]: the
    gradient of the one against the row the other returns. *)
Definition energy_rate (G : Globals) (y : State) (t : R) : R :=
  let '(e1, e2, e3, e4) := energy_gradient G y in
  let '(d1, d2, d3, d4) := derive G y t (L1 G) (L2 G) (m1 G) (m2 G) in
  e1 * d1 + e2 * d2 + e3 * d3 + e4 * d4.

(** ** The rest of [make_plot] and the animation *)

(** Lines 122 and 123: [ax.set_xlim(-L1-L2-r, L1+L2+r)], and the same
    pair for [ax.set_ylim]. *)
Definition axes_limits (G : Globals) : R * R :=
  (- L1 G - L2 G - r, L1 G + L2 G + r).

(** [frames=500]: the animation asks [make_plot] for the frames of
    [range(500)], in that order. *)
Definition frames : Z := 500%Z.

Definition animation_frames (xy : Cartesian) : list (option (list Artist)) :=
  map (make_plot xy) (range frames).

(** [np.linspace(start, stop, num)] for [num > 1]: [num] points,
    [start + k*step] with [step = (stop - start) / (num - 1)]. *)
Definition np_linspace (start stop : R) (num : Z) : list R :=
  let step := (stop - start) / IZR (num - 1) in
  map (fun k => start + IZR k * step) (range num).

(** [init()]: the data [line.set_data] is given. *)
Definition init : list R * list R := ([], []).

(** [animate(i)]: the data [line.set_data] is given. *)
Definition animate (i : Z) : list R * list R :=
  let x := np_linspace 0 2 1000 in
  let y := map (fun x => sin (2 * PI * (x - 0.01 * IZR i))) x in
  (x, y).

(** The lines of a trail joined end to end: each line's points without
    its last one, which the next line begins with. *)
Definition joined (lines : list Artist) : list (R * R) :=
  flat_map (fun a => match segment_of a with
                     | Some seg => removelast (points seg)
                     | None => []
                     end) lines.

(** * Properties *)

(** ** [derive] *)

Lemma derive_denominator_pos (y : State) (m1 m2 : R) :
  0 < m1 -> 0 < m2 -> 0 < derive_denominator y m1 m2.
Proof.
  destruct y as [[[theta_1 z1] theta_2] z2]; unfold derive_denominator.
  intros Hm1 Hm2.
  pose proof (pow2_ge_0 (sin (theta_1 - theta_2))) as Hs.
  nra.
Qed.

Lemma quotient_twice (a b c : R) :
  b <> 0 -> c <> 0 -> a / b / c = a / (b * c).
Proof. intros Hb Hc; field; split; assumption. Qed.

(** C5: on positive parameters [derive] returns the row of section 4.1,
    [(omega1, domega1, omega2, domega2)], with the two quotients written
    over [L1*(m1 + m2*s^2)] and [L2*(m1 + m2*s^2)]. *)
Theorem derive_is_StateDerivative (G : Globals) (st : State) (t : R) :
  0 < L1 G -> 0 < L2 G -> 0 < m1 G -> 0 < m2 G ->
  derive G st t (L1 G) (L2 G) (m1 G) (m2 G) = StateDerivative_spec G st.
Proof.
  intros HL1 HL2 Hm1 Hm2.
  destruct st as [[[theta1 omega1] theta2] omega2].
  pose proof (derive_denominator_pos (theta1, omega1, theta2, omega2) _ _ Hm1 Hm2)
    as Hden.
  unfold derive_denominator in Hden.
  cbv beta iota zeta delta [derive StateDerivative_spec].
  rewrite !quotient_twice by lra.
  reflexivity.
Qed.

Lemma derive_is_StateDerivative_witness :
  0 < L1 module_globals /\
  derive module_globals y0 0 1 1 1 1 = StateDerivative_spec module_globals y0.
Proof.
  split.
  - simpl; lra.
  - apply (derive_is_StateDerivative module_globals y0 0); simpl; lra.
Defined.

(** C9: with positive masses the denominator [m1 + m2*sin(theta1-theta2)^2]
    is strictly positive, hence not zero, and it is the number both
    quotients of [derive] divide by. *)
Theorem derive_denominator_positive (G : Globals) (y : State) (t L1 L2 m1 m2 : R) :
  0 < m1 -> 0 < m2 ->
  0 < derive_denominator y m1 m2 /\
  derive_denominator y m1 m2 <> 0 /\
  derive G y t L1 L2 m1 m2 =
    (snd (fst (fst y)),
     z1dot_numerator G y L1 L2 m1 m2 / L1 / derive_denominator y m1 m2,
     snd y,
     z2dot_numerator G y L1 L2 m1 m2 / L2 / derive_denominator y m1 m2).
Proof.
  intros Hm1 Hm2.
  pose proof (derive_denominator_pos y m1 m2 Hm1 Hm2) as Hden.
  split; [exact Hden|]. split; [lra|].
  destruct y as [[[theta_1 z1] theta_2] z2].
  reflexivity.
Qed.

Lemma derive_denominator_positive_witness :
  0 < 1 /\ 0 < derive_denominator y0 1 1.
Proof.
  split; [lra|].
  exact (proj1 (derive_denominator_positive module_globals y0 0 1 1 1 1
                  ltac:(lra) ltac:(lra))).
Defined.

(** ** [total_energy] *)

(** C6: [total_energy] is the potential plus the kinetic energy of
    section 4.2, and the kinetic part of a row with both angular
    velocities zero is exactly zero. *)
Theorem total_energy_is_EnergyFunction (G : Globals) :
  (forall st, total_energy G st = EnergyFunction_spec G st) /\
  (forall st, potential G st = potential_spec G st) /\
  (forall st, kinetic G st = kinetic_spec G st) /\
  (forall theta1 theta2, kinetic G (theta1, 0, theta2, 0) = 0).
Proof.
  split; [|split; [|split]].
  - intros [[[th1 th1d] th2] th2d]; reflexivity.
  - intros [[[th1 th1d] th2] th2d]; reflexivity.
  - intros [[[th1 th1d] th2] th2d]; reflexivity.
  - intros theta1 theta2; unfold kinetic; ring.
Qed.

Lemma half_literal : 0.5 = / 2.
Proof. lra. Qed.

Lemma cos_swap (a b : R) : cos (b - a) = cos (a - b).
Proof. rewrite <- (cos_neg (a - b)); f_equal; ring. Qed.

(** C7, as amended: exchanging rod 1 and rod 2 in the state and in the
    parameters adds [swap_gap] to the energy, so the energy is unchanged
    exactly when [swap_gap] is zero. *)
Theorem total_energy_swap (G : Globals) (st : State) :
  total_energy (swap_params G) (swap_state st)
    = total_energy G st + swap_gap G st /\
  (total_energy (swap_params G) (swap_state st) = total_energy G st
   <-> swap_gap G st = 0).
Proof.
  assert (Hgap : total_energy (swap_params G) (swap_state st)
                 = total_energy G st + swap_gap G st).
  { destruct st as [[[theta1 omega1] theta2] omega2].
    destruct G as [l1 l2 k1 k2 grav tol].
    cbv beta iota zeta delta [total_energy potential kinetic swap_gap
                               swap_params swap_state L1 L2 m1 m2 g].
    rewrite (cos_swap theta1 theta2), half_literal.
    field. }
  split; [exact Hgap|].
  rewrite Hgap; split; intro H; lra.
Qed.

(** C7 fails as stated: with the script's own parameters (all rods and
    masses 1), the folded pendulum and its swap have energies [-g] and [g]. *)
Lemma swap_changes_total_energy :
  total_energy (swap_params module_globals) (swap_state folded_row)
  <> total_energy module_globals folded_row.
Proof.
  cbv beta iota zeta delta [total_energy potential kinetic swap_params
                             swap_state folded_row module_globals
                             L1 L2 m1 m2 g].
  rewrite !Rminus_0_r, cos_0, cos_PI.
  lra.
Qed.

(** ** The projection *)

Lemma bob1_cartesian (G : Globals) (y : list State) :
  bob1 (cartesian G y) = map (bob1_spec G) y.
Proof.
  unfold bob1, cartesian, column0; cbn [x1 y1].
  induction y as [|[[[th1 th1d] th2] th2d] y IH]; [reflexivity|].
  cbn [map combine]; rewrite IH; reflexivity.
Qed.

Lemma bob2_cartesian (G : Globals) (y : list State) :
  bob2 (cartesian G y) = map (bob2_spec G) y.
Proof.
  unfold bob2, cartesian, np_zip, column0, column2; cbn [x2 y2].
  induction y as [|[[[th1 th1d] th2] th2d] y IH]; [reflexivity|].
  cbn [map combine fst snd]; rewrite IH.
  unfold bob2_spec, bob1_spec; cbn [fst snd].
  do 2 f_equal; ring.
Qed.

(** C8: on a trajectory the check accepted, the arrays the script binds
    hold, sample by sample, [bob1 = (L1*sin theta1, -L1*cos theta1)] and
    [bob2 = bob1 + (L2*sin theta2, -L2*cos theta2)]; with both angles
    zero they are [(0, -L1)] and [(0, -L1-L2)]. *)
Theorem cartesian_projection (G : Globals) (initial : State)
    (y : list State) (xy : Cartesian) :
  after_integration G initial y = Continues xy ->
  bob1 xy = map (bob1_spec G) y /\
  bob2 xy = map (bob2_spec G) y /\
  (forall i theta1 omega1 theta2 omega2,
      nth_error y i = Some (theta1, omega1, theta2, omega2) ->
      nth_error (bob1 xy) i = Some (L1 G * sin theta1, - L1 G * cos theta1) /\
      nth_error (bob2 xy) i
        = Some (L1 G * sin theta1 + L2 G * sin theta2,
                - L1 G * cos theta1 + - L2 G * cos theta2)) /\
  (forall i omega1 omega2,
      nth_error y i = Some (0, omega1, 0, omega2) ->
      nth_error (bob1 xy) i = Some (0, - L1 G) /\
      nth_error (bob2 xy) i = Some (0, - L1 G - L2 G)).
Proof.
  unfold after_integration.
  destruct (Rgt_dec _ _) as [_|_]; [discriminate|].
  intros Hxy; injection Hxy as <-.
  rewrite bob1_cartesian, bob2_cartesian.
  split; [reflexivity|]. split; [reflexivity|]. split.
  - intros i theta1 omega1 theta2 omega2 Hi.
    rewrite !nth_error_map, Hi; split; reflexivity.
  - intros i omega1 omega2 Hi.
    rewrite !nth_error_map, Hi; cbn [option_map bob1_spec bob2_spec fst snd].
    rewrite sin_0, cos_0.
    split; do 2 f_equal; ring.
Qed.

(** ** The energy check *)

Lemma energy_drift_is_sum (G : Globals) (initial : State) (y : list State) :
  energy_drift G initial y = drift_spec G initial y.
Proof.
  unfold energy_drift, drift_spec, total_energy_rows, np_sum.
  induction y as [|st y IH]; [reflexivity|].
  cbn [map fold_right]; rewrite IH.
  destruct st as [[[a b] c] d], initial as [[[a0 b0] c0] d0]; reflexivity.
Qed.

(** The energy a row gains over [y0] when only the first rod moves. *)
Lemma energy_above_y0 (w : R) :
  total_energy module_globals (3 * PI / 7, w, 3 * PI / 4, 0)
  - total_energy module_globals y0 = w ^ 2.
Proof.
  cbv beta iota zeta delta [total_energy potential kinetic y0 module_globals
                             L1 L2 m1 m2 g].
  rewrite half_literal; field.
Qed.

Lemma drift_of_moving_row : energy_drift module_globals y0 [moving_row] = 1.
Proof.
  unfold energy_drift, total_energy_rows, np_sum, moving_row.
  cbn [map fold_right].
  rewrite energy_above_y0, Rabs_right; lra.
Qed.

Lemma drift_of_slow_rows :
  energy_drift module_globals y0 [slow_row; slow_row] = 0.08.
Proof.
  unfold energy_drift, total_energy_rows, np_sum, slow_row.
  cbn [map fold_right].
  rewrite energy_above_y0, Rabs_right; lra.
Qed.

Lemma max_deviation_of_slow_rows :
  max_deviation module_globals y0 [slow_row; slow_row] = 0.04.
Proof.
  unfold max_deviation, slow_row; cbn [fold_right].
  replace (EnergyFunction_spec module_globals (3 * PI / 7, 0.2, 3 * PI / 4, 0)
           - EnergyFunction_spec module_globals y0) with (0.2 ^ 2)
    by (symmetry; apply energy_above_y0).
  rewrite Rabs_right by lra.
  rewrite (Rmax_left (0.2 ^ 2) 0) by lra.
  rewrite Rmax_left; lra.
Qed.

(** C1: the check computes [E0] from the initial row and the drift as the
    sum over all samples of [|E_i - E0|]; it exits exactly when that sum
    is strictly greater than [EDRIFT] and goes on to the projection
    otherwise.  The sum is not the largest deviation: two samples 0.04
    away from [E0] pass a per-sample bound of 0.05 and fail the check. *)
Theorem energy_check_sums_deviations (G : Globals) (initial : State)
    (y : list State) :
  energy_drift G initial y = drift_spec G initial y /\
  (drift_spec G initial y > EDRIFT G <->
   after_integration G initial y = SystemExit 1 (drift_message G)) /\
  (drift_spec G initial y <= EDRIFT G <->
   after_integration G initial y = Continues (cartesian G y)) /\
  (max_deviation module_globals y0 [slow_row; slow_row]
     <= EDRIFT module_globals /\
   after_integration module_globals y0 [slow_row; slow_row]
     = SystemExit 1 (drift_message module_globals)).
Proof.
  split; [apply energy_drift_is_sum|].
  rewrite <- energy_drift_is_sum.
  unfold after_integration, np_max.
  split; [|split].
  - destruct (Rgt_dec _ _) as [Hgt|Hle]; split; intro H;
      try reflexivity; try assumption; try discriminate; contradiction.
  - destruct (Rgt_dec _ _) as [Hgt|Hle]; split; intro H;
      try reflexivity; try discriminate; lra.
  - rewrite max_deviation_of_slow_rows, drift_of_slow_rows.
    cbn [EDRIFT module_globals].
    split; [lra|].
    destruct (Rgt_dec _ _) as [Hgt|Hle]; [reflexivity|lra].
Qed.

Lemma cartesian_projection_witness :
  after_integration module_globals hanging_row [hanging_row]
    = Continues (cartesian module_globals [hanging_row]) /\
  nth_error (bob2 (cartesian module_globals [hanging_row])) 0
    = Some (0, - L1 module_globals - L2 module_globals).
Proof.
  assert (Hacc : after_integration module_globals hanging_row [hanging_row]
                 = Continues (cartesian module_globals [hanging_row])).
  { unfold after_integration, np_max, energy_drift, total_energy_rows, np_sum.
    cbn [map fold_right].
    replace (total_energy module_globals hanging_row
             - total_energy module_globals hanging_row) with 0 by ring.
    rewrite Rabs_R0, Rplus_0_r.
    destruct (Rgt_dec 0 (EDRIFT module_globals)) as [Hgt|Hle]; [|reflexivity].
    cbn [EDRIFT module_globals] in Hgt; lra. }
  split; [exact Hacc|].
  exact (proj2 (proj2 (proj2 (proj2
           (cartesian_projection module_globals hanging_row [hanging_row]
                                 _ Hacc))) 0%nat 0 0 eq_refl)).
Defined.

(** ** Leaving the script on a failed check *)

Lemma rejected_when_over (G : Globals) (initial : State) (y : list State) :
  energy_drift G initial y > EDRIFT G ->
  after_integration G initial y = SystemExit 1 (drift_message G).
Proof.
  intros Hgt; unfold after_integration, np_max.
  destruct (Rgt_dec _ _) as [_|Hle]; [reflexivity|contradiction].
Qed.

Lemma drift_message_values (G : Globals) (v : R) :
  reports (drift_message G) v <-> v = EDRIFT G.
Proof.
  unfold reports, drift_message; cbn [In]; split.
  - intros [H|[H|[H|[]]]]; try discriminate; injection H as <-; reflexivity.
  - intros ->; right; left; reflexivity.
Qed.

(** C3, as amended: when the check fails the script exits with status 1
    and the message [Maximum energy drift of <EDRIFT> exceeded.]; the
    only value in the message is the tolerance, the measured drift is not
    in it; and no Cartesian array is bound, whatever the solver. *)
Theorem failure_exits_with_tolerance (G : Globals) (initial : State)
    (y : list State) :
  energy_drift G initial y > EDRIFT G ->
  after_integration G initial y = SystemExit 1 (drift_message G) /\
  1%Z <> 0%Z /\
  reports (drift_message G) (EDRIFT G) /\
  (forall v, reports (drift_message G) v -> v = EDRIFT G) /\
  ~ reports (drift_message G) (energy_drift G initial y) /\
  (forall xy, after_integration G initial y <> Continues xy) /\
  (forall (odeint : Odeint) (t : list R),
      odeint (fun y t => derive G y t (L1 G) (L2 G) (m1 G) (m2 G)) initial t = y ->
      script odeint G initial t = SystemExit 1 (drift_message G)).
Proof.
  intros Hgt.
  pose proof (rejected_when_over G initial y Hgt) as Hexit.
  split; [exact Hexit|].
  split; [discriminate|].
  split; [apply drift_message_values; reflexivity|].
  split; [intros v Hv; apply drift_message_values; exact Hv|].
  split; [intros Hv; apply drift_message_values in Hv; lra|].
  split; [intros xy Hxy; rewrite Hexit in Hxy; discriminate|].
  intros odeint t Hy; unfold script; rewrite Hy; exact Hexit.
Qed.

Lemma failure_exits_with_tolerance_witness :
  energy_drift module_globals y0 [moving_row] > EDRIFT module_globals /\
  after_integration module_globals y0 [moving_row]
    = SystemExit 1 (drift_message module_globals).
Proof.
  assert (Hgt : energy_drift module_globals y0 [moving_row]
                > EDRIFT module_globals).
  { rewrite drift_of_moving_row; cbn [EDRIFT module_globals]; lra. }
  split; [exact Hgt|].
  exact (proj1 (failure_exits_with_tolerance module_globals y0 [moving_row] Hgt)).
Defined.

(** C3 fails as stated: a trajectory whose drift is 1 makes the script
    exit with a message whose only value is 0.05. *)
Lemma failure_message_omits_drift :
  ~ failure_reports_drift module_globals y0 [moving_row].
Proof.
  unfold failure_reports_drift.
  intros Hclaim.
  assert (Hgt : energy_drift module_globals y0 [moving_row]
                > EDRIFT module_globals).
  { rewrite drift_of_moving_row; cbn [EDRIFT module_globals]; lra. }
  destruct (Hclaim Hgt) as (status & msg & Hexit & _ & Hdrift & _).
  rewrite (rejected_when_over _ _ _ Hgt) in Hexit.
  injection Hexit as _ <-.
  apply drift_message_values in Hdrift.
  rewrite drift_of_moving_row in Hdrift.
  cbn [EDRIFT module_globals] in Hdrift; lra.
Qed.

(** ** Slices and ranges *)

Open Scope Z_scope.

Lemma in_range (n j : Z) : In j (range n) <-> 0 <= j < n.
Proof.
  unfold range; rewrite in_map_iff; split.
  - intros (k & <- & Hk); apply in_seq in Hk; lia.
  - intros Hj; exists (Z.to_nat j); split; [lia|apply in_seq; lia].
Qed.

Lemma length_range (n : Z) : length (range n) = Z.to_nat n.
Proof. unfold range; rewrite length_map, length_seq; reflexivity. Qed.

Lemma range_split (n j : Z) :
  0 <= j -> j + 1 < n ->
  range n = range j ++ [j; j + 1]
            ++ map Z.of_nat (seq (Z.to_nat j + 2) (Z.to_nat n - Z.to_nat j - 2)).
Proof.
  intros Hj Hn; unfold range.
  replace (Z.to_nat n)
    with (Z.to_nat j + (2 + (Z.to_nat n - Z.to_nat j - 2)))%nat by lia.
  rewrite seq_app, map_app; f_equal.
  rewrite seq_app, map_app; cbn [seq map Nat.add app].
  replace (Z.to_nat j + (2 + (Z.to_nat n - Z.to_nat j - 2))
           - Z.to_nat j - 2)%nat
    with (Z.to_nat n - Z.to_nat j - 2)%nat by lia.
  repeat f_equal; lia.
Qed.

Lemma slice_bound_nonneg (n k : Z) : 0 <= k -> slice_bound n k = Z.min k n.
Proof.
  intros Hk; unfold slice_bound.
  destruct (Z.ltb_spec k 0); [lia|reflexivity].
Qed.

Lemma nth_error_py_slice {A : Type} (l : list A) (lo hi : Z) (k : nat) :
  0 <= lo <= hi ->
  nth_error (py_slice l lo hi) k
  = if Z.of_nat k <? hi - lo then nth_error l (Z.to_nat lo + k) else None.
Proof.
  intros Hb; unfold py_slice.
  rewrite !slice_bound_nonneg by lia.
  rewrite nth_error_firstn, nth_error_skipn.
  set (n := Z.of_nat (length l)).
  destruct (Nat.ltb_spec k (Z.to_nat (Z.min hi n - Z.min lo n))) as [Hk|Hk];
    destruct (Z.ltb_spec (Z.of_nat k) (hi - lo)) as [Hk'|Hk'].
  - f_equal; lia.
  - lia.
  - symmetry; apply nth_error_None; subst n; lia.
  - reflexivity.
Qed.

Lemma length_py_slice {A : Type} (l : list A) (lo hi : Z) :
  0 <= lo <= hi -> hi <= Z.of_nat (length l) ->
  Z.of_nat (length (py_slice l lo hi)) = hi - lo.
Proof.
  intros Hb Hn; unfold py_slice.
  rewrite !slice_bound_nonneg by lia.
  rewrite length_firstn, length_skipn; lia.
Qed.

Lemma py_slice_covers {A : Type} (l : list A) (lo s : Z) :
  0 <= lo -> 0 <= s -> lo + s < Z.of_nat (length l) ->
  covers l (py_slice l lo (lo + s + 1)) lo (lo + s).
Proof.
  intros Hlo Hs Hn; unfold covers.
  pose proof (length_py_slice l lo (lo + s + 1) ltac:(lia) ltac:(lia)) as Hlen.
  split; [lia|].
  intros k Hk.
  rewrite nth_error_py_slice by lia.
  destruct (Z.ltb_spec (Z.of_nat k) (lo + s + 1 - lo)); [|lia].
  split; [reflexivity|].
  apply nth_error_Some; lia.
Qed.

Lemma combine_skipn {A B : Type} (n : nat) (a : list A) (b : list B) :
  skipn n (combine a b) = combine (skipn n a) (skipn n b).
Proof.
  revert a b; induction n as [|n IH]; intros a b; [reflexivity|].
  destruct a as [|x a]; [reflexivity|].
  destruct b as [|z b]; [cbn [skipn combine]; rewrite combine_nil; reflexivity|].
  cbn [skipn combine]; apply IH.
Qed.

Lemma py_slice_combine {A B : Type} (a : list A) (b : list B) (lo hi : Z) :
  length a = length b ->
  combine (py_slice a lo hi) (py_slice b lo hi) = py_slice (combine a b) lo hi.
Proof.
  intros Hlen; unfold py_slice.
  rewrite length_combine, <- Hlen, Nat.min_id.
  rewrite combine_skipn, combine_firstn; reflexivity.
Qed.

(** ** The trail loop *)

Lemma trail_body_appends (ns s i : Z) (xy : Cartesian)
    (drawn : list Artist) (j : Z) :
  trail_body ns s i xy drawn j = drawn ++ drawn_at ns s i xy j.
Proof.
  unfold drawn_at, trail_body.
  destruct (i - (ns - j) * s <? 0); [symmetry; apply app_nil_r|reflexivity].
Qed.

Lemma fold_trail_body (ns s i : Z) (xy : Cartesian) (js : list Z)
    (drawn : list Artist) :
  fold_left (trail_body ns s i xy) js drawn
  = drawn ++ flat_map (drawn_at ns s i xy) js.
Proof.
  revert drawn; induction js as [|j js IH]; intros drawn; cbn [fold_left flat_map].
  - symmetry; apply app_nil_r.
  - rewrite IH, trail_body_appends, app_assoc; reflexivity.
Qed.

Lemma trail_flat_map (ns max_trail : Z) (xy : Cartesian) (i : Z)
    (drawn : list Artist) :
  trail ns max_trail xy i drawn
  = drawn ++ flat_map (drawn_at ns (max_trail / ns) i xy) (range ns).
Proof. unfold trail; apply fold_trail_body. Qed.

Lemma drawn_at_skipped (ns s i : Z) (xy : Cartesian) (j : Z) :
  i - (ns - j) * s < 0 -> drawn_at ns s i xy j = [].
Proof.
  intros H; unfold drawn_at, trail_body.
  destruct (Z.ltb_spec (i - (ns - j) * s) 0); [reflexivity|lia].
Qed.

Lemma drawn_at_emitted (ns s i : Z) (xy : Cartesian) (j : Z) :
  0 <= i - (ns - j) * s ->
  drawn_at ns s i xy j
  = [Line2D (py_slice (x2 xy) (i - (ns - j) * s) (i - (ns - j) * s + s + 1))
            (py_slice (y2 xy) (i - (ns - j) * s) (i - (ns - j) * s + s + 1))
            Red (Some ((IZR j / IZR ns) ^ 2)%R)].
Proof.
  intros H; unfold drawn_at, trail_body.
  destruct (Z.ltb_spec (i - (ns - j) * s) 0); [lia|reflexivity].
Qed.

Lemma length_drawn_at (ns s i : Z) (xy : Cartesian) (j : Z) :
  length (drawn_at ns s i xy j) = if i - (ns - j) * s <? 0 then 0%nat else 1%nat.
Proof.
  unfold drawn_at, trail_body.
  destruct (i - (ns - j) * s <? 0); reflexivity.
Qed.

(** Every iteration draws: as many segments as iterations. *)
Lemma flat_map_all_drawn (ns s i : Z) (xy : Cartesian) (js : list Z) :
  (forall j, In j js -> 0 <= i - (ns - j) * s) ->
  length (flat_map (drawn_at ns s i xy) js) = length js.
Proof.
  induction js as [|j js IH]; intros Hall; [reflexivity|].
  cbn [flat_map]; rewrite length_app, length_drawn_at.
  destruct (Z.ltb_spec (i - (ns - j) * s) 0) as [Hneg|_].
  - specialize (Hall j (or_introl eq_refl)); lia.
  - rewrite IH by (intros k Hk; apply Hall; right; exact Hk); reflexivity.
Qed.

Lemma flat_map_drawn_le (ns s i : Z) (xy : Cartesian) (js : list Z) :
  (length (flat_map (drawn_at ns s i xy) js) <= length js)%nat.
Proof.
  induction js as [|j js IH]; [apply Nat.le_refl|].
  cbn [flat_map length]; rewrite length_app, length_drawn_at.
  destruct (i - (ns - j) * s <? 0); lia.
Qed.

(** The segment count of the trail, against [ns * s]. *)
Lemma trail_count (ns max_trail : Z) (xy : Cartesian) (i : Z) :
  0 < ns -> 0 <= max_trail ->
  (i < ns * (max_trail / ns) ->
   Z.of_nat (length (trail ns max_trail xy i [])) < ns) /\
  (ns * (max_trail / ns) <= i ->
   Z.of_nat (length (trail ns max_trail xy i [])) = ns).
Proof.
  intros Hns Hmt.
  assert (Hs : 0 <= max_trail / ns) by (apply Z.div_pos; lia).
  rewrite trail_flat_map; cbn [app].
  set (s := max_trail / ns) in *.
  split; intros Hi.
  - unfold range.
    replace (Z.to_nat ns) with (S (Z.to_nat ns - 1)) by lia.
    cbn [seq map flat_map].
    rewrite drawn_at_skipped by (cbn; lia); cbn [app].
    pose proof (flat_map_drawn_le ns s i xy
                  (map Z.of_nat (seq 1 (Z.to_nat ns - 1)))) as Hle.
    rewrite length_map, length_seq in Hle; lia.
  - rewrite flat_map_all_drawn, length_range; [lia|].
    intros j Hj; apply in_range in Hj; nia.
Qed.

(** C2, as amended: with [ns = 20] and [max_trail = 50] (so [s = 2] and
    [ns*s = 40]) the trail has strictly fewer than 20 segments for every
    frame [i < 40] and exactly 20 for every [i >= 40]; at frame 49 the
    first segment drawn is segment 0, with [imin = 9].  In general the
    count is below [ns] for [i < ns*s] and equal to [ns] from [ns*s] on. *)
Theorem trail_segment_count (xy : Cartesian) (i : Z) :
  (i < 40 -> (length (trail 20 max_trail xy i []) < 20)%nat) /\
  (40 <= i -> length (trail 20 max_trail xy i []) = 20%nat) /\
  nth_error (trail 20 max_trail xy 49 []) 0
    = Some (Line2D (py_slice (x2 xy) 9 12) (py_slice (y2 xy) 9 12)
                   Red (Some ((0 / 20) ^ 2)%R)) /\
  (forall ns mt, 0 < ns -> 0 <= mt ->
     (i < ns * (mt / ns) -> Z.of_nat (length (trail ns mt xy i [])) < ns) /\
     (ns * (mt / ns) <= i -> Z.of_nat (length (trail ns mt xy i [])) = ns)).
Proof.
  destruct (trail_count 20 max_trail xy i eq_refl ltac:(discriminate))
    as [Hlt Heq].
  change (20 * (max_trail / 20)) with 40 in Hlt, Heq.
  split; [intros Hi; specialize (Hlt Hi); lia|].
  split; [intros Hi; specialize (Heq Hi); lia|].
  split; [|intros ns mt; apply trail_count].
  rewrite trail_flat_map; cbn [app].
  change (range 20) with (0 :: map Z.of_nat (seq 1 19)).
  change (max_trail / 20) with 2.
  cbn [flat_map].
  rewrite drawn_at_emitted by discriminate.
  reflexivity.
Qed.

Lemma trail_segment_count_witness :
  40 <= 45 /\ length (trail 20 max_trail still_xy 45 []) = 20%nat.
Proof.
  assert (H : 40 <= 45) by discriminate.
  split; [exact H|].
  exact (proj1 (proj2 (trail_segment_count still_xy 45)) H).
Defined.

(** C2 fails as stated: frame 49 is below [max_trail = 50] and its trail
    has all 20 segments. *)
Lemma trail_full_below_max_trail :
  ~ (49 < max_trail -> (length (trail 20 max_trail still_xy 49 []) < 20)%nat).
Proof.
  intros Hclaim.
  specialize (Hclaim eq_refl).
  pose proof (proj2 (trail_count 20 max_trail still_xy 49 eq_refl
                       ltac:(discriminate))) as Heq.
  change (20 * (max_trail / 20)) with 40 in Heq.
  specialize (Heq ltac:(discriminate)); lia.
Qed.

(** ** The trail against section 4.6 *)

Lemma cartesian_lengths (G : Globals) (y : list State) :
  length (x2 (cartesian G y)) = length y /\
  length (y2 (cartesian G y)) = length y.
Proof.
  unfold cartesian, np_zip, column0, column2; cbn [x2 y2].
  repeat (rewrite ?length_map, ?length_combine).
  rewrite Nat.min_id; split; reflexivity.
Qed.

Lemma length_bob2 (G : Globals) (y : list State) :
  length (bob2 (cartesian G y)) = length y.
Proof. rewrite bob2_cartesian; apply length_map. Qed.

Lemma segments_of_flat_map (ns s i : Z) (xy : Cartesian) (js : list Z) :
  length (x2 xy) = length (y2 xy) ->
  map segment_of (flat_map (drawn_at ns s i xy) js)
  = map Some
      (flat_map (fun j =>
                   let imin := i - (ns - j) * s in
                   if imin <? 0 then []
                   else [mkTrailSegment
                           (py_slice (bob2 xy) imin (imin + s + 1))
                           ((IZR j / IZR ns) ^ 2)%R])
                js).
Proof.
  intros Hlen; induction js as [|j js IH]; [reflexivity|].
  cbn [flat_map]; rewrite !map_app, IH; f_equal.
  unfold drawn_at, trail_body.
  destruct (i - (ns - j) * s <? 0); [reflexivity|].
  cbn [app map segment_of]; unfold bob2.
  rewrite py_slice_combine by exact Hlen; reflexivity.
Qed.

Lemma alpha_increasing (ns j j' : Z) :
  0 < ns -> 0 <= j < j' ->
  ((IZR j / IZR ns) ^ 2 < (IZR j' / IZR ns) ^ 2)%R.
Proof.
  intros Hns [Hj Hjj'].
  apply IZR_lt in Hns; apply IZR_le in Hj; apply IZR_lt in Hjj'.
  pose proof (Rinv_0_lt_compat _ Hns) as Hinv.
  unfold Rdiv; set (u := (/ IZR ns)%R) in *.
  assert (Ha : (0 <= IZR j * u)%R) by nra.
  assert (Hb : (IZR j * u < IZR j' * u)%R) by nra.
  nra.
Qed.

Lemma alpha_below_linear (ns j : Z) :
  0 < j < ns -> ((IZR j / IZR ns) ^ 2 < IZR j / IZR ns)%R.
Proof.
  intros [Hj Hns].
  assert (Hn : (0 < IZR ns)%R) by (apply IZR_lt; lia).
  apply IZR_lt in Hj; apply IZR_lt in Hns.
  assert (Hq : (0 < IZR j / IZR ns < 1)%R).
  { split.
    - apply Rdiv_lt_0_compat; assumption.
    - apply Rmult_lt_reg_r with (IZR ns); [assumption|].
      unfold Rdiv; rewrite Rmult_assoc, Rinv_l by lra; lra. }
  nra.
Qed.

Lemma spec_alphas_sorted (ns s i : Z) (pts : list (R * R)) (n a : nat) :
  0 < ns ->
  StronglySorted Rlt
    (map seg_alpha
       (flat_map (fun j =>
                    let imin := i - (ns - j) * s in
                    if imin <? 0 then []
                    else [mkTrailSegment (py_slice pts imin (imin + s + 1))
                                         ((IZR j / IZR ns) ^ 2)%R])
                 (map Z.of_nat (seq a n)))).
Proof.
  intros Hns; revert a; induction n as [|n IH]; intros a; [constructor|].
  cbn [seq map flat_map].
  destruct (i - (ns - Z.of_nat a) * s <? 0); [apply IH|].
  cbn [app map seg_alpha]; constructor; [apply IH|].
  apply Forall_forall; intros x Hx.
  apply in_map_iff in Hx; destruct Hx as (seg & <- & Hseg).
  apply in_flat_map in Hseg; destruct Hseg as (j' & Hj' & Hseg).
  apply in_map_iff in Hj'; destruct Hj' as (k & <- & Hk).
  apply in_seq in Hk.
  cbv zeta in Hseg.
  destruct (i - (ns - Z.of_nat k) * s <? 0); [destruct Hseg|].
  destruct Hseg as [<-|[]]; cbn [seg_alpha].
  apply alpha_increasing; lia.
Qed.

Lemma make_plot_trail (xy : Cartesian) (i : Z) (artists : list Artist) :
  make_plot xy i = Some artists ->
  exists rods c0 c1 c2,
    artists = [rods; c0; c1; c2] ++ trail 20 max_trail xy i [].
Proof.
  unfold make_plot.
  destruct (np_getitem (x1 xy) i) as [x1i|]; [|discriminate].
  destruct (np_getitem (x2 xy) i) as [x2i|]; [|discriminate].
  destruct (np_getitem (y1 xy) i) as [y1i|]; [|discriminate].
  destruct (np_getitem (y2 xy) i) as [y2i|]; [|discriminate].
  intros H; injection H as <-.
  do 4 eexists.
  rewrite (trail_flat_map _ _ _ _ [_; _; _; _]), (trail_flat_map _ _ _ _ []).
  reflexivity.
Qed.

(** C4: for every frame [i] the loop runs [j] over [0..ns-1] with
    [s = max_trail // ns]; iteration [j] draws nothing when
    [imin = i - (ns-j)*s] is negative and otherwise one line through
    [bob2[imin : imin+s+1]] with [alpha = (j/ns)^2]; the slice holds the
    samples [imin .. imin+s] that exist; the segments drawn are those of
    section 4.6; their alphas increase strictly, and lie below the linear
    fade [j/ns]. *)
Theorem trail_is_TrailWindower (G : Globals) (y : list State)
    (ns mt i : Z) :
  let xy := cartesian G y in
  let s := mt / ns in
  trail ns mt xy i [] = flat_map (drawn_at ns s i xy) (range ns) /\
  (forall j, In j (range ns) <-> 0 <= j < ns) /\
  (forall j, i - (ns - j) * s < 0 -> drawn_at ns s i xy j = []) /\
  (forall j, 0 <= i - (ns - j) * s ->
     drawn_at ns s i xy j
     = [Line2D (py_slice (x2 xy) (i - (ns - j) * s) (i - (ns - j) * s + s + 1))
               (py_slice (y2 xy) (i - (ns - j) * s) (i - (ns - j) * s + s + 1))
               Red (Some ((IZR j / IZR ns) ^ 2)%R)]) /\
  (forall imin (k : nat), 0 <= imin -> 0 <= s ->
     nth_error (py_slice (bob2 xy) imin (imin + s + 1)) k
     = if Z.of_nat k <? s + 1
       then nth_error (bob2 xy) (Z.to_nat imin + k) else None) /\
  map segment_of (trail ns mt xy i [])
    = map Some (TrailWindower_spec ns mt i (map (bob2_spec G) y)) /\
  (0 < ns ->
   StronglySorted Rlt
     (map seg_alpha (TrailWindower_spec ns mt i (map (bob2_spec G) y)))) /\
  (forall j j', 0 < ns -> 0 <= j < j' ->
     ((IZR j / IZR ns) ^ 2 < (IZR j' / IZR ns) ^ 2)%R) /\
  (forall j, 0 < j < ns -> ((IZR j / IZR ns) ^ 2 < IZR j / IZR ns)%R) /\
  (forall artists, make_plot xy i = Some artists ->
     exists rods c0 c1 c2,
       artists = [rods; c0; c1; c2] ++ trail 20 max_trail xy i []).
Proof.
  intros xy s.
  split; [apply (trail_flat_map ns mt xy i [])|].
  split; [intros j; apply in_range|].
  split; [intros j; apply drawn_at_skipped|].
  split; [intros j; apply drawn_at_emitted|].
  split.
  { intros imin k Himin Hs.
    rewrite nth_error_py_slice by lia.
    replace (imin + s + 1 - imin) with (s + 1) by lia; reflexivity. }
  split.
  { rewrite (trail_flat_map ns mt xy i []); cbn [app].
    rewrite segments_of_flat_map.
    - unfold TrailWindower_spec; subst xy; rewrite bob2_cartesian; reflexivity.
    - subst xy; destruct (cartesian_lengths G y) as [-> ->]; reflexivity. }
  split; [intros Hns; apply spec_alphas_sorted; exact Hns|].
  split; [intros j j'; apply alpha_increasing|].
  split; [intros j; apply alpha_below_linear|].
  intros artists; apply make_plot_trail.
Qed.

Lemma trail_is_TrailWindower_witness :
  0 < 20 /\
  StronglySorted Rlt
    (map seg_alpha
       (TrailWindower_spec 20 max_trail 49
          (map (bob2_spec module_globals) (repeat hanging_row 50)))).
Proof.
  assert (H : 0 < 20) by reflexivity.
  split; [exact H|].
  exact (proj1 (proj2 (proj2 (proj2 (proj2 (proj2 (proj2
           (trail_is_TrailWindower module_globals (repeat hanging_row 50)
                                   20 max_trail 49))))))) H).
Defined.

(** C10: when iterations [j] and [j+1] both draw (that is, [imin >= 0] at
    [j]), their lines are neighbours on the axes, the first through the
    samples [imin .. imin+s] of [bob2] and the second through
    [imin+s .. imin+2s]: the last point of one is the first point of the
    other, and [imin+s] is the only index the two have in common. *)
Theorem consecutive_segments_abut (G : Globals) (y : list State)
    (ns mt i j : Z) :
  let xy := cartesian G y in
  let s := mt / ns in
  let imin := i - (ns - j) * s in
  0 < ns -> 0 <= mt -> 0 <= i < Z.of_nat (length y) ->
  0 <= j -> j + 1 < ns -> 0 <= imin ->
  exists before after xs ys xs' ys' a a',
    trail ns mt xy i []
      = before ++ [Line2D xs ys Red (Some a); Line2D xs' ys' Red (Some a')]
               ++ after /\
    xs = py_slice (x2 xy) imin (imin + s + 1) /\
    ys = py_slice (y2 xy) imin (imin + s + 1) /\
    xs' = py_slice (x2 xy) (imin + s) (imin + s + s + 1) /\
    ys' = py_slice (y2 xy) (imin + s) (imin + s + s + 1) /\
    covers (bob2 xy) (combine xs ys) imin (imin + s) /\
    covers (bob2 xy) (combine xs' ys') (imin + s) (imin + 2 * s) /\
    nth_error (combine xs ys) (Z.to_nat s) = nth_error (combine xs' ys') 0 /\
    nth_error (combine xs' ys') 0 = nth_error (bob2 xy) (Z.to_nat (imin + s)) /\
    nth_error (combine xs' ys') 0 <> None /\
    (forall k, (imin <= k <= imin + s /\ imin + s <= k <= imin + 2 * s)
               <-> k = imin + s).
Proof.
  intros xy s imin Hns Hmt Hi Hj Hj1 Himin.
  assert (Hs : 0 <= s) by (apply Z.div_pos; lia).
  assert (Hlen : length (x2 xy) = length (y2 xy)).
  { subst xy; destruct (cartesian_lengths G y) as [-> ->]; reflexivity. }
  assert (Hbob : Z.of_nat (length (bob2 xy)) = Z.of_nat (length y)).
  { subst xy; rewrite length_bob2; reflexivity. }
  assert (Hnext : i - (ns - (j + 1)) * s = imin + s) by (subst imin; ring).
  assert (Htop : imin + s + s <= i) by (subst imin; nia).
  pose proof (py_slice_covers (bob2 xy) imin s Himin Hs ltac:(lia)) as Hc1.
  pose proof (py_slice_covers (bob2 xy) (imin + s) s ltac:(lia) Hs ltac:(lia))
    as Hc2.
  replace (imin + s + s) with (imin + 2 * s) in Hc2 at 2 by ring.
  unfold bob2 in Hc1, Hc2 at 2.
  rewrite <- py_slice_combine in Hc1, Hc2 by exact Hlen.
  fold (bob2 xy) in Hc1, Hc2.
  eexists _, _, _, _, _, _, _, _.
  split.
  { rewrite (trail_flat_map ns mt xy i []); cbn [app]; fold s.
    rewrite (range_split ns j Hj Hj1), !flat_map_app.
    cbn [flat_map].
    rewrite (drawn_at_emitted ns s i xy j) by exact Himin.
    rewrite (drawn_at_emitted ns s i xy (j + 1)) by lia.
    rewrite Hnext; fold imin.
    rewrite app_nil_r; cbn [app]; reflexivity. }
  split; [reflexivity|]. split; [reflexivity|].
  split; [reflexivity|]. split; [reflexivity|].
  split; [exact Hc1|]. split; [exact Hc2|].
  destruct Hc1 as [Hl1 Hn1], Hc2 as [Hl2 Hn2].
  destruct (Hn1 (Z.to_nat s) ltac:(lia)) as [Hlast _].
  destruct (Hn2 0%nat ltac:(lia)) as [Hfirst Hsome].
  rewrite Nat.add_0_r in Hfirst.
  split; [rewrite Hlast, Hfirst; f_equal; lia|].
  split; [exact Hfirst|].
  split; [exact Hsome|].
  intros k; lia.
Qed.

Lemma consecutive_segments_abut_witness :
  0 <= 49 - (20 - 0) * (max_trail / 20) /\
  exists before after xs ys xs' ys' a a',
    trail 20 max_trail still_xy 49 []
    = before ++ [Line2D xs ys Red (Some a); Line2D xs' ys' Red (Some a')]
             ++ after.
Proof.
  assert (H0 : 0 < 20) by reflexivity.
  assert (H1 : 0 <= max_trail) by discriminate.
  assert (H2 : 0 <= 49 < Z.of_nat (length (repeat hanging_row 50)))
    by (split; [discriminate|reflexivity]).
  assert (H3 : 0 <= 0) by discriminate.
  assert (H4 : 0 + 1 < 20) by reflexivity.
  assert (H5 : 0 <= 49 - (20 - 0) * (max_trail / 20)) by discriminate.
  split; [exact H5|].
  destruct (consecutive_segments_abut module_globals (repeat hanging_row 50)
              20 max_trail 49 0 H0 H1 H2 H3 H4 H5)
    as (before & after & xs & ys & xs' & ys' & a & a' & Htrail & _).
  exists before, after, xs, ys, xs', ys', a, a'; exact Htrail.
Defined.

(** * Further properties *)

Open Scope R_scope.

Lemma trig_derivative_left (a b c d x : R) :
  derivable_pt_lim (fun u => a * cos u + b * cos (u - d) + c) x
                   (- a * sin x - b * sin (x - d)).
Proof.
  pose proof (derivable_pt_lim_cos x) as Hcos.
  pose proof (derivable_pt_lim_comp (fun u => u - d) cos x 1 (- sin (x - d)))
    as Hshift.
  assert (Hid : derivable_pt_lim (fun u => u - d) x 1).
  { replace 1 with (1 - 0) by ring.
    apply (derivable_pt_lim_minus id (fct_cte d)).
    - apply derivable_pt_lim_id.
    - apply derivable_pt_lim_const. }
  specialize (Hshift Hid (derivable_pt_lim_cos (x - d))).
  pose proof (derivable_pt_lim_scal cos a x _ Hcos) as H1.
  pose proof (derivable_pt_lim_scal (comp cos (fun u => u - d)) b x _ Hshift) as H2.
  pose proof (derivable_pt_lim_plus _ _ x _ _ H1 H2) as H3.
  pose proof (derivable_pt_lim_plus _ _ x _ _ H3 (derivable_pt_lim_const c x)) as H4.
  replace (- a * sin x - b * sin (x - d))
    with (a * - sin x + b * (- sin (x - d) * 1) + 0) by ring.
  eapply derivable_pt_lim_ext; [|exact H4].
  intros z; reflexivity.
Qed.

Lemma trig_derivative_right (a b c d x : R) :
  derivable_pt_lim (fun u => a * cos u + b * cos (d - u) + c) x
                   (- a * sin x + b * sin (d - x)).
Proof.
  replace (- a * sin x + b * sin (d - x))
    with (- a * sin x - b * sin (x - d)).
  - eapply derivable_pt_lim_ext; [|apply (trig_derivative_left a b c d x)].
    intros z; cbv beta. rewrite (cos_swap z d); reflexivity.
  - replace (d - x) with (- (x - d)) by ring. rewrite sin_neg; ring.
Qed.

Lemma quadratic_derivative (a b c x : R) :
  derivable_pt_lim (fun u => a * u ^ 2 + b * u + c) x (2 * a * x + b).
Proof.
  pose proof (derivable_pt_lim_pow x 2) as Hsq.
  pose proof (derivable_pt_lim_scal _ a x _ Hsq) as H1.
  pose proof (derivable_pt_lim_scal id b x _ (derivable_pt_lim_id x)) as H2.
  pose proof (derivable_pt_lim_plus _ _ x _ _ H1 H2) as H3.
  pose proof (derivable_pt_lim_plus _ _ x _ _ H3 (derivable_pt_lim_const c x)) as H4.
  replace (2 * a * x + b) with (a * (INR 2 * x ^ Init.Nat.pred 2) + b * 1 + 0)
    by (simpl; ring).
  eapply derivable_pt_lim_ext; [|exact H4].
  intros z; reflexivity.
Qed.
Lemma energy_gradient_is_gradient (G : Globals) (th1 th1d th2 th2d : R) :
  let '(e1, e2, e3, e4) := energy_gradient G (th1, th1d, th2, th2d) in
  derivable_pt_lim (fun u => total_energy G (u, th1d, th2, th2d)) th1 e1 /\
  derivable_pt_lim (fun u => total_energy G (th1, u, th2, th2d)) th1d e2 /\
  derivable_pt_lim (fun u => total_energy G (th1, th1d, u, th2d)) th2 e3 /\
  derivable_pt_lim (fun u => total_energy G (th1, th1d, th2, u)) th2d e4.
Proof.
  destruct G as [l1 l2 k1 k2 grav tol].
  cbv beta iota zeta delta [energy_gradient total_energy potential kinetic
                             L1 L2 m1 m2 g].
  rewrite half_literal.
  split; [|split; [|split]].
  - eapply derivable_pt_lim_ext;
      [|replace (_ - _) with
          (- (- (k1 + k2) * l1 * grav) * sin th1
           - (k2 * l1 * l2 * th1d * th2d) * sin (th1 - th2)) by ring;
        apply (trig_derivative_left _ _
                 (- k2 * l2 * grav * cos th2 + / 2 * k1 * (l1 * th1d) ^ 2
                  + / 2 * k2 * ((l1 * th1d) ^ 2 + (l2 * th2d) ^ 2)))].
    intros z; cbv beta; field.
  - eapply derivable_pt_lim_ext;
      [|replace (_ + _) with
          (2 * (/ 2 * (k1 + k2) * l1 ^ 2) * th1d
           + k2 * l1 * l2 * th2d * cos (th1 - th2)) by field;
        apply (quadratic_derivative _ _
                 (- (k1 + k2) * l1 * grav * cos th1 - k2 * l2 * grav * cos th2
                  + / 2 * k2 * (l2 * th2d) ^ 2))].
    intros z; cbv beta; field.
  - eapply derivable_pt_lim_ext;
      [|replace (_ + _) with
          (- (- k2 * l2 * grav) * sin th2
           + (k2 * l1 * l2 * th1d * th2d) * sin (th1 - th2)) by ring;
        apply (trig_derivative_right _ _
                 (- (k1 + k2) * l1 * grav * cos th1 + / 2 * k1 * (l1 * th1d) ^ 2
                  + / 2 * k2 * ((l1 * th1d) ^ 2 + (l2 * th2d) ^ 2)))].
    intros z; cbv beta; field.
  - eapply derivable_pt_lim_ext;
      [|replace (_ + _) with
          (2 * (/ 2 * k2 * l2 ^ 2) * th2d
           + k2 * l1 * l2 * th1d * cos (th1 - th2)) by field;
        apply (quadratic_derivative _ _
                 (- (k1 + k2) * l1 * grav * cos th1 - k2 * l2 * grav * cos th2
                  + / 2 * k1 * (l1 * th1d) ^ 2
                  + / 2 * k2 * (l1 * th1d) ^ 2))].
    intros z; cbv beta; field.
Qed.

Lemma energy_rate_zero (G : Globals) (y : State) (t : R) :
  0 < L1 G -> 0 < L2 G -> 0 < m1 G -> 0 < m2 G ->
  energy_rate G y t = 0.
Proof.
  intros HL1 HL2 Hm1 Hm2.
  destruct y as [[[th1 th1d] th2] th2d].
  pose proof (derive_denominator_pos (th1, th1d, th2, th2d) _ _ Hm1 Hm2) as Hden.
  pose proof (sin2_cos2 (th1 - th2)) as Hsc; unfold Rsqr in Hsc.
  destruct G as [l1 l2 k1 k2 grav tol].
  cbv beta iota zeta delta [energy_rate energy_gradient derive derive_denominator
                             L1 L2 m1 m2 g] in *.
  set (s := sin (th1 - th2)) in *; set (c := cos (th1 - th2)) in *.
  set (A := sin th1); set (B := sin th2).
  assert (Hc : c * c = 1 - s * s) by lra.
  assert (Hd : k1 + k2 * s ^ 2 <> 0) by lra.
  clearbody s c A B.
  field_simplify_eq; [|repeat split; lra].
  assert (Hc2 : c ^ 2 = 1 - s ^ 2) by (simpl; lra).
  rewrite Hc2; ring.
Qed.
(** X1: [derive] conserves [total_energy].  [energy_gradient] holds the
    four partial derivatives of [total_energy], and on positive rod
    lengths and masses the gradient is orthogonal to the row [derive]
    returns: along the vector field the energy does not change. *)
Theorem derive_conserves_total_energy (G : Globals) (th1 th1d th2 th2d t : R) :
  0 < L1 G -> 0 < L2 G -> 0 < m1 G -> 0 < m2 G ->
  (let '(e1, e2, e3, e4) := energy_gradient G (th1, th1d, th2, th2d) in
   derivable_pt_lim (fun u => total_energy G (u, th1d, th2, th2d)) th1 e1 /\
   derivable_pt_lim (fun u => total_energy G (th1, u, th2, th2d)) th1d e2 /\
   derivable_pt_lim (fun u => total_energy G (th1, th1d, u, th2d)) th2 e3 /\
   derivable_pt_lim (fun u => total_energy G (th1, th1d, th2, u)) th2d e4) /\
  energy_rate G (th1, th1d, th2, th2d) t = 0.
Proof.
  intros HL1 HL2 Hm1 Hm2; split.
  - apply energy_gradient_is_gradient.
  - apply energy_rate_zero; assumption.
Qed.

Lemma derive_conserves_total_energy_witness :
  0 < L1 module_globals /\ energy_rate module_globals y0 0 = 0.
Proof.
  assert (H : 0 < 1) by lra.
  split; [exact H|].
  exact (proj2 (derive_conserves_total_energy module_globals
                  (3 * PI / 7) 0 (3 * PI / 4) 0 0 H H H H)).
Defined.

Lemma sin_difference_zero (a b : R) :
  sin a = 0 -> sin b = 0 -> sin (a - b) = 0.
Proof. intros Ha Hb; rewrite sin_minus, Ha, Hb; ring. Qed.

(** X2: a pendulum at rest with both rods vertical (each angle a
    multiple of pi, up or down) stays at rest: [derive] returns the zero
    row there. *)
Theorem derive_rest_is_fixed (G : Globals) (theta_1 theta_2 t L1 L2 m1 m2 : R) :
  0 < L1 -> 0 < L2 -> 0 < m1 -> 0 < m2 ->
  sin theta_1 = 0 -> sin theta_2 = 0 ->
  derive G (theta_1, 0, theta_2, 0) t L1 L2 m1 m2 = (0, 0, 0, 0).
Proof.
  intros HL1 HL2 Hm1 Hm2 H1 H2.
  pose proof (sin_difference_zero _ _ H1 H2) as Hs.
  cbv beta iota zeta delta [derive].
  rewrite H1, H2, Hs.
  assert (Hz : forall n d e : R, n = 0 -> n / d / e = 0)
    by (intros n d e ->; unfold Rdiv; ring).
  rewrite !Hz by ring; reflexivity.
Qed.

Lemma derive_rest_is_fixed_witness :
  sin PI = 0 /\ derive module_globals (0, 0, PI, 0) 0 1 1 1 1 = (0, 0, 0, 0).
Proof.
  assert (H : 0 < 1) by lra.
  split; [exact sin_PI|].
  exact (derive_rest_is_fixed module_globals 0 PI 0 1 1 1 1 H H H H sin_0 sin_PI).
Defined.

(** X3: mirroring the pendulum left to right (all four entries of the
    row negated) negates the row [derive] returns and leaves
    [total_energy] unchanged. *)
Theorem mirror_symmetry (G : Globals) (theta_1 z1 theta_2 z2 t L1 L2 m1 m2 : R) :
  derive G (- theta_1, - z1, - theta_2, - z2) t L1 L2 m1 m2
  = (let '(d1, d2, d3, d4) := derive G (theta_1, z1, theta_2, z2) t L1 L2 m1 m2 in
     (- d1, - d2, - d3, - d4)) /\
  total_energy G (- theta_1, - z1, - theta_2, - z2)
  = total_energy G (theta_1, z1, theta_2, z2).
Proof.
  cbv beta iota zeta delta [derive total_energy potential kinetic].
  replace (- theta_1 - - theta_2) with (- (theta_1 - theta_2)) by ring.
  rewrite !sin_neg, !cos_neg.
  assert (Hsq : forall x : R, (- x) ^ 2 = x ^ 2) by (intros x; ring).
  rewrite !Hsq.
  split.
  - apply f_equal2; [apply f_equal2; [apply f_equal2|]|]; unfold Rdiv; ring.
  - ring.
Qed.

(** X4: reversing time (both angular velocities negated) negates the
    two angle rates and keeps the two accelerations; the energy is the
    same. *)
Theorem time_reversal (G : Globals) (theta_1 z1 theta_2 z2 t L1 L2 m1 m2 : R) :
  derive G (theta_1, - z1, theta_2, - z2) t L1 L2 m1 m2
  = (let '(d1, d2, d3, d4) := derive G (theta_1, z1, theta_2, z2) t L1 L2 m1 m2 in
     (- d1, d2, - d3, d4)) /\
  total_energy G (theta_1, - z1, theta_2, - z2)
  = total_energy G (theta_1, z1, theta_2, z2).
Proof.
  cbv beta iota zeta delta [derive total_energy potential kinetic].
  assert (Hsq : forall x : R, (- x) ^ 2 = x ^ 2) by (intros x; ring).
  rewrite !Hsq.
  split.
  - apply f_equal2; [apply f_equal2; [apply f_equal2|]|]; unfold Rdiv; ring.
  - ring.
Qed.

Lemma sin_shift (x : R) (k : Z) : sin (x + 2 * IZR k * PI) = sin x.
Proof.
  destruct (Z.le_gt_cases 0 k) as [Hk|Hk].
  - rewrite <- (Z2Nat.id k Hk), <- INR_IZR_INZ; apply sin_period.
  - rewrite <- (sin_period (x + 2 * IZR k * PI) (Z.to_nat (- k))).
    rewrite INR_IZR_INZ, Z2Nat.id, opp_IZR by lia.
    f_equal; ring.
Qed.

Lemma cos_shift (x : R) (k : Z) : cos (x + 2 * IZR k * PI) = cos x.
Proof.
  destruct (Z.le_gt_cases 0 k) as [Hk|Hk].
  - rewrite <- (Z2Nat.id k Hk), <- INR_IZR_INZ; apply cos_period.
  - rewrite <- (cos_period (x + 2 * IZR k * PI) (Z.to_nat (- k))).
    rewrite INR_IZR_INZ, Z2Nat.id, opp_IZR by lia.
    f_equal; ring.
Qed.

(** X5: turning either rod through whole revolutions changes neither
    the row [derive] returns nor [total_energy]. *)
Theorem whole_turns (G : Globals) (theta_1 z1 theta_2 z2 t L1 L2 m1 m2 : R)
    (k1 k2 : Z) :
  derive G (theta_1 + 2 * IZR k1 * PI, z1, theta_2 + 2 * IZR k2 * PI, z2)
         t L1 L2 m1 m2
  = derive G (theta_1, z1, theta_2, z2) t L1 L2 m1 m2 /\
  total_energy G (theta_1 + 2 * IZR k1 * PI, z1, theta_2 + 2 * IZR k2 * PI, z2)
  = total_energy G (theta_1, z1, theta_2, z2).
Proof.
  cbv beta iota zeta delta [derive total_energy potential kinetic].
  replace (theta_1 + 2 * IZR k1 * PI - (theta_2 + 2 * IZR k2 * PI))
    with (theta_1 - theta_2 + 2 * IZR (k1 - k2) * PI)
    by (rewrite minus_IZR; ring).
  rewrite !sin_shift, !cos_shift.
  split; reflexivity.
Qed.

Lemma kinetic_nonneg (G : Globals) (y : State) :
  0 <= m1 G -> 0 <= m2 G -> 0 <= kinetic G y.
Proof.
  intros H1 H2; destruct y as [[[th1 th1d] th2] th2d].
  cbv beta iota zeta delta [kinetic].
  set (a := L1 G * th1d); set (b := L2 G * th2d).
  pose proof (COS_bound (th1 - th2)) as [Hlo Hhi].
  set (c := cos (th1 - th2)) in *.
  replace (2 * L1 G * L2 G * th1d * th2d * c) with (2 * a * b * c)
    by (subst a b; ring).
  assert (Hq : 0 <= a ^ 2 + b ^ 2 + 2 * a * b * c).
  { destruct (Rle_dec 0 (a * b)) as [Hab|Hab].
    - assert (0 <= (a - b) ^ 2) by apply pow2_ge_0. nra.
    - assert (0 <= (a + b) ^ 2) by apply pow2_ge_0. nra. }
  assert (Ha : 0 <= a ^ 2) by apply pow2_ge_0.
  rewrite half_literal; nra.
Qed.

(** X6: with non-negative masses the kinetic part is never negative, and
    with positive lengths and gravity as well no row has less energy than
    the pendulum hanging at rest, [-(m1+m2)*L1*g - m2*L2*g]. *)
Theorem total_energy_lower_bound (G : Globals) (y : State) :
  0 <= L1 G -> 0 <= L2 G -> 0 <= m1 G -> 0 <= m2 G -> 0 <= g G ->
  0 <= kinetic G y /\
  total_energy G (0, 0, 0, 0) = - (m1 G + m2 G) * L1 G * g G - m2 G * L2 G * g G /\
  total_energy G (0, 0, 0, 0) <= total_energy G y.
Proof.
  intros HL1 HL2 Hm1 Hm2 Hg.
  pose proof (kinetic_nonneg G y Hm1 Hm2) as Hk.
  split; [exact Hk|].
  assert (Hrest : total_energy G (0, 0, 0, 0)
                  = - (m1 G + m2 G) * L1 G * g G - m2 G * L2 G * g G).
  { cbv beta iota zeta delta [total_energy potential kinetic].
    rewrite Rminus_0_r, cos_0; ring. }
  split; [exact Hrest|].
  rewrite Hrest; unfold total_energy.
  destruct y as [[[th1 th1d] th2] th2d].
  cbv beta iota zeta delta [potential] in *.
  pose proof (COS_bound th1) as [_ Hc1].
  pose proof (COS_bound th2) as [_ Hc2].
  assert (Ha : 0 <= (m1 G + m2 G) * L1 G * g G)
    by (repeat apply Rmult_le_pos; lra).
  assert (Hb : 0 <= m2 G * L2 G * g G) by (repeat apply Rmult_le_pos; lra).
  nra.
Qed.

Lemma total_energy_lower_bound_witness :
  0 <= L1 module_globals /\
  total_energy module_globals (0, 0, 0, 0) <= total_energy module_globals y0.
Proof.
  assert (H : 0 <= 1) by lra.
  assert (Hg : 0 <= g module_globals) by (cbn [g module_globals]; lra).
  split; [exact H|].
  exact (proj2 (proj2 (total_energy_lower_bound module_globals y0 H H H H Hg))).
Defined.
(** ** More on the energy check *)

Lemma energy_drift_cons (G : Globals) (initial st : State) (y : list State) :
  energy_drift G initial (st :: y)
  = Rabs (total_energy G st - total_energy G initial) + energy_drift G initial y.
Proof. reflexivity. Qed.

Lemma energy_drift_nonneg (G : Globals) (initial : State) (y : list State) :
  0 <= energy_drift G initial y.
Proof.
  induction y as [|st y IH].
  - unfold energy_drift, np_sum; cbn [total_energy_rows map fold_right]; lra.
  - rewrite energy_drift_cons.
    pose proof (Rabs_pos (total_energy G st - total_energy G initial)); lra.
Qed.

Lemma energy_drift_app (G : Globals) (initial : State) (y y' : list State) :
  energy_drift G initial (y ++ y')
  = energy_drift G initial y + energy_drift G initial y'.
Proof.
  induction y as [|st y IH].
  - cbn [app]; unfold energy_drift at 2, np_sum;
      cbn [total_energy_rows map fold_right]; ring.
  - cbn [app]; rewrite !energy_drift_cons, IH; ring.
Qed.

Lemma energy_drift_zero (G : Globals) (initial : State) (y : list State) :
  energy_drift G initial y = 0 <->
  Forall (fun st => total_energy G st = total_energy G initial) y.
Proof.
  induction y as [|st y IH].
  - split; [constructor|reflexivity].
  - rewrite energy_drift_cons.
    pose proof (Rabs_pos (total_energy G st - total_energy G initial)) as Ha.
    pose proof (energy_drift_nonneg G initial y) as Hd.
    split.
    + intros Hsum.
      assert (Hz : Rabs (total_energy G st - total_energy G initial) = 0) by lra.
      constructor.
      * destruct (Req_dec (total_energy G st - total_energy G initial) 0)
          as [He|He]; [lra|].
        apply Rabs_no_R0 in He; contradiction.
      * apply IH; lra.
    + intros Hall; inversion Hall as [|? ? Hst Hrest]; subst.
      rewrite Hst, (proj2 IH Hrest).
      replace (total_energy G initial - total_energy G initial) with 0 by ring.
      rewrite Rabs_R0; ring.
Qed.

Lemma conserved_is_accepted (G : Globals) (initial : State) (y : list State) :
  0 <= EDRIFT G ->
  Forall (fun st => total_energy G st = total_energy G initial) y ->
  after_integration G initial y = Continues (cartesian G y).
Proof.
  intros Htol Hall.
  apply energy_drift_zero in Hall.
  unfold after_integration, np_max; rewrite Hall.
  destruct (Rgt_dec 0 (EDRIFT G)) as [Hgt|_]; [lra|reflexivity].
Qed.

(** X7: the drift is never negative, and it is zero exactly when every
    sample has the energy of the initial row.  So with a non-negative
    tolerance a trajectory that conserves energy exactly (the empty one
    too) goes on to the projection, and with a negative tolerance every
    trajectory, even the empty one, makes the script exit. *)
Theorem drift_zero_and_sign (G : Globals) (initial : State) (y : list State) :
  0 <= energy_drift G initial y /\
  (energy_drift G initial y = 0 <->
   Forall (fun st => total_energy G st = total_energy G initial) y) /\
  (0 <= EDRIFT G ->
   Forall (fun st => total_energy G st = total_energy G initial) y ->
   after_integration G initial y = Continues (cartesian G y)) /\
  (EDRIFT G < 0 ->
   after_integration G initial y = SystemExit 1 (drift_message G)).
Proof.
  pose proof (energy_drift_nonneg G initial y) as Hpos.
  split; [exact Hpos|]. split; [apply energy_drift_zero|]. split.
  - apply conserved_is_accepted.
  - intros Htol; apply rejected_when_over; lra.
Qed.

Lemma drift_zero_and_sign_witness :
  0 <= EDRIFT module_globals /\
  after_integration module_globals y0 [y0; y0]
  = Continues (cartesian module_globals [y0; y0]).
Proof.
  assert (H : 0 <= EDRIFT module_globals) by (cbn [EDRIFT module_globals]; lra).
  split; [exact H|].
  exact (proj1 (proj2 (proj2 (drift_zero_and_sign module_globals y0 [y0; y0])))
           H (Forall_cons _ eq_refl (Forall_cons _ eq_refl (Forall_nil _)))).
Defined.

(** X8: the drift of a trajectory is the drift of any prefix plus the
    drift of the rest.  Hence samples added to a trajectory never repair
    it: once a prefix makes the script exit, so does the whole. *)
Theorem drift_accumulates (G : Globals) (initial : State) (y y' : list State) :
  energy_drift G initial (y ++ y')
  = energy_drift G initial y + energy_drift G initial y' /\
  energy_drift G initial y <= energy_drift G initial (y ++ y') /\
  (after_integration G initial y = SystemExit 1 (drift_message G) ->
   after_integration G initial (y ++ y') = SystemExit 1 (drift_message G)).
Proof.
  pose proof (energy_drift_app G initial y y') as Happ.
  pose proof (energy_drift_nonneg G initial y') as Hpos.
  split; [exact Happ|]. split; [lra|].
  unfold after_integration, np_max.
  destruct (Rgt_dec (energy_drift G initial y) (EDRIFT G)) as [Hgt|_];
    [|discriminate].
  intros _.
  destruct (Rgt_dec (energy_drift G initial (y ++ y')) (EDRIFT G)) as [_|Hle];
    [reflexivity|lra].
Qed.

Lemma drift_accumulates_witness :
  after_integration module_globals y0 [moving_row]
    = SystemExit 1 (drift_message module_globals) /\
  after_integration module_globals y0 ([moving_row] ++ [y0])
    = SystemExit 1 (drift_message module_globals).
Proof.
  assert (H : after_integration module_globals y0 [moving_row]
              = SystemExit 1 (drift_message module_globals)).
  { apply rejected_when_over.
    rewrite drift_of_moving_row; cbn [EDRIFT module_globals]; lra. }
  split; [exact H|].
  exact (proj2 (proj2 (drift_accumulates module_globals y0 [moving_row] [y0])) H).
Defined.

Lemma sample_below_drift (G : Globals) (initial st : State) (y : list State) :
  In st y ->
  Rabs (total_energy G st - total_energy G initial) <= energy_drift G initial y.
Proof.
  induction y as [|st' y IH]; [intros []|].
  intros [->|Hin]; rewrite energy_drift_cons.
  - pose proof (energy_drift_nonneg G initial y); lra.
  - specialize (IH Hin).
    pose proof (Rabs_pos (total_energy G st' - total_energy G initial)); lra.
Qed.

(** X9: the check is at least as strict as a per-sample bound: on a
    trajectory it accepts, every sample's energy is within [EDRIFT] of
    the initial energy. *)
Theorem accepted_samples_within_tolerance (G : Globals) (initial : State)
    (y : list State) (xy : Cartesian) :
  after_integration G initial y = Continues xy ->
  forall st, In st y ->
    Rabs (total_energy G st - total_energy G initial) <= EDRIFT G.
Proof.
  unfold after_integration, np_max.
  destruct (Rgt_dec _ _) as [|Hle]; [discriminate|].
  intros _ st Hin.
  pose proof (sample_below_drift G initial st y Hin); lra.
Qed.

Lemma accepted_samples_within_tolerance_witness :
  after_integration module_globals y0 [y0; y0]
    = Continues (cartesian module_globals [y0; y0]) /\
  Rabs (total_energy module_globals y0 - total_energy module_globals y0)
    <= EDRIFT module_globals.
Proof.
  assert (H : after_integration module_globals y0 [y0; y0]
              = Continues (cartesian module_globals [y0; y0])).
  { apply conserved_is_accepted.
    - cbn [EDRIFT module_globals]; lra.
    - repeat constructor. }
  split; [exact H|].
  exact (accepted_samples_within_tolerance module_globals y0 [y0; y0] _ H
           y0 (or_introl eq_refl)).
Defined.
(** ** More on the projection *)

(** X10: the bobs stay on their rods: at every sample the first bob is
    at distance [L1] from the anchor and the second at distance [L2]
    from the first (squared distances [L1^2] and [L2^2]). *)
Theorem rods_keep_their_length (G : Globals) (y : list State) (k : nat)
    (p q : R * R) :
  nth_error (bob1 (cartesian G y)) k = Some p ->
  nth_error (bob2 (cartesian G y)) k = Some q ->
  fst p ^ 2 + snd p ^ 2 = L1 G ^ 2 /\
  (fst q - fst p) ^ 2 + (snd q - snd p) ^ 2 = L2 G ^ 2.
Proof.
  rewrite bob1_cartesian, bob2_cartesian, !nth_error_map.
  destruct (nth_error y k) as [[[[th1 th1d] th2] th2d]|]; [|discriminate].
  cbn [option_map bob1_spec bob2_spec fst snd].
  intros Hp Hq; injection Hp as <-; injection Hq as <-; cbn [fst snd].
  pose proof (sin2_cos2 th1) as H1; pose proof (sin2_cos2 th2) as H2.
  unfold Rsqr in H1, H2.
  split; nra.
Qed.

Lemma rods_keep_their_length_witness :
  nth_error (bob1 (cartesian module_globals [y0])) 0
    = Some (bob1_spec module_globals y0) /\
  fst (bob1_spec module_globals y0) ^ 2 + snd (bob1_spec module_globals y0) ^ 2
    = L1 module_globals ^ 2.
Proof.
  assert (Hq : nth_error (bob2 (cartesian module_globals [y0])) 0
               = Some (bob2_spec module_globals y0))
    by (rewrite bob2_cartesian; reflexivity).
  split; [reflexivity|].
  exact (proj1 (rods_keep_their_length module_globals [y0] 0
                  (bob1_spec module_globals y0) (bob2_spec module_globals y0)
                  eq_refl Hq)).
Defined.

Lemma trig_bounded (a b s c s' c' : R) :
  0 <= a -> 0 <= b -> -1 <= s <= 1 -> -1 <= c <= 1 ->
  -1 <= s' <= 1 -> -1 <= c' <= 1 ->
  - a <= a * s <= a /\ - a <= - a * c <= a /\
  - a - b <= a * s + b * s' <= a + b /\
  - a - b <= - a * c + - b * c' <= a + b.
Proof. intros; repeat split; nra. Qed.

(** X11: nothing falls outside the axes: with non-negative rod lengths
    every bob position has both coordinates within [L1 + L2] of the
    anchor, so a circle of radius [r] around it lies inside the limits
    [make_plot] sets. *)
Theorem bobs_inside_axes (G : Globals) (y : list State) (p : R * R) :
  0 <= L1 G -> 0 <= L2 G ->
  In p (bob1 (cartesian G y)) \/ In p (bob2 (cartesian G y)) ->
  fst (axes_limits G) <= fst p - r /\ fst p + r <= snd (axes_limits G) /\
  fst (axes_limits G) <= snd p - r /\ snd p + r <= snd (axes_limits G).
Proof.
  intros HL1 HL2 Hin.
  rewrite bob1_cartesian, bob2_cartesian, !in_map_iff in Hin.
  unfold axes_limits; cbn [fst snd].
  destruct Hin as [(st & <- & _)|(st & <- & _)];
    destruct st as [[[th1 th1d] th2] th2d];
    cbn [bob1_spec bob2_spec fst snd];
    destruct (trig_bounded (L1 G) (L2 G) _ _ _ _ HL1 HL2
                (SIN_bound th1) (COS_bound th1) (SIN_bound th2) (COS_bound th2))
      as (Ha & Hb & Hc & Hd);
    repeat split; lra.
Qed.

Lemma bobs_inside_axes_witness :
  0 <= L1 module_globals /\
  snd (bob2_spec module_globals hanging_row) + r
    <= snd (axes_limits module_globals).
Proof.
  assert (H : 0 <= 1) by lra.
  assert (Hin : In (bob2_spec module_globals hanging_row)
                   (bob2 (cartesian module_globals [hanging_row])))
    by (rewrite bob2_cartesian; left; reflexivity).
  split; [exact H|].
  exact (proj2 (proj2 (proj2
           (bobs_inside_axes module_globals [hanging_row]
              (bob2_spec module_globals hanging_row) H H
              (or_intror Hin))))).
Defined.
(** ** More on [make_plot] *)

Open Scope Z_scope.

Lemma np_getitem_nonneg (a : list R) (i : Z) :
  0 <= i -> np_getitem a i = nth_error a (Z.to_nat i).
Proof.
  intros Hi; unfold np_getitem.
  destruct (Z.ltb_spec i (- Z.of_nat (length a))); [lia|].
  destruct (Z.ltb_spec i 0); [lia|reflexivity].
Qed.

Lemma np_getitem_negative (a : list R) (i : Z) :
  - Z.of_nat (length a) <= i < 0 ->
  np_getitem a i = nth_error a (Z.to_nat (i + Z.of_nat (length a))).
Proof.
  intros Hi; unfold np_getitem.
  destruct (Z.ltb_spec i (- Z.of_nat (length a))); [lia|].
  destruct (Z.ltb_spec i 0); [reflexivity|lia].
Qed.

Lemma np_getitem_none (a : list R) (i : Z) :
  np_getitem a i = None <->
  i < - Z.of_nat (length a) \/ Z.of_nat (length a) <= i.
Proof.
  unfold np_getitem.
  destruct (Z.ltb_spec i (- Z.of_nat (length a))) as [Hlo|Hlo].
  - split; [intros _; left; exact Hlo|reflexivity].
  - destruct (Z.ltb_spec i 0) as [Hneg|Hpos]; rewrite nth_error_None; lia.
Qed.

(** The sample [a[i]] reads: [i] itself, or [i + len] for a negative [i]. *)
Lemma np_getitem_wraps (a : list R) (i : Z) :
  - Z.of_nat (length a) <= i ->
  np_getitem a i
  = nth_error a (Z.to_nat (if i <? 0 then i + Z.of_nat (length a) else i)).
Proof.
  intros Hi; destruct (Z.ltb_spec i 0).
  - apply np_getitem_negative; lia.
  - apply np_getitem_nonneg; lia.
Qed.

Lemma cartesian_nth (G : Globals) (y : list State) (k : nat) (st : State) :
  nth_error y k = Some st ->
  nth_error (x1 (cartesian G y)) k = Some (fst (bob1_spec G st)) /\
  nth_error (y1 (cartesian G y)) k = Some (snd (bob1_spec G st)) /\
  nth_error (x2 (cartesian G y)) k = Some (fst (bob2_spec G st)) /\
  nth_error (y2 (cartesian G y)) k = Some (snd (bob2_spec G st)).
Proof.
  revert k; induction y as [|st' y IH]; intros k Hk.
  - destruct k; discriminate.
  - destruct k as [|k].
    + injection Hk as ->.
      destruct st as [[[th1 th1d] th2] th2d].
      repeat split; cbn; f_equal; ring.
    + destruct (IH k Hk) as (H1 & H2 & H3 & H4).
      repeat split; assumption.
Qed.

(** X12: [make_plot(i)] raises [IndexError] exactly for the frames
    outside [-len, len), [len] being the number of samples. *)
Theorem make_plot_index_error (G : Globals) (y : list State) (i : Z) :
  make_plot (cartesian G y) i = None <->
  i < - Z.of_nat (length y) \/ Z.of_nat (length y) <= i.
Proof.
  destruct (cartesian_lengths G y) as [Hx2 Hy2].
  assert (Hx1 : length (x1 (cartesian G y)) = length y)
    by (unfold cartesian, column0; cbn [x1]; rewrite !length_map; reflexivity).
  assert (Hy1 : length (y1 (cartesian G y)) = length y)
    by (unfold cartesian, column0; cbn [y1]; rewrite !length_map; reflexivity).
  pose proof (np_getitem_none (x1 (cartesian G y)) i) as N1.
  pose proof (np_getitem_none (x2 (cartesian G y)) i) as N2.
  pose proof (np_getitem_none (y1 (cartesian G y)) i) as N3.
  pose proof (np_getitem_none (y2 (cartesian G y)) i) as N4.
  rewrite Hx1 in N1; rewrite Hx2 in N2; rewrite Hy1 in N3; rewrite Hy2 in N4.
  unfold make_plot.
  destruct (np_getitem (x1 (cartesian G y)) i);
    [|split; [intros _; apply N1; reflexivity|reflexivity]].
  destruct (np_getitem (x2 (cartesian G y)) i);
    [|split; [intros _; apply N2; reflexivity|reflexivity]].
  destruct (np_getitem (y1 (cartesian G y)) i);
    [|split; [intros _; apply N3; reflexivity|reflexivity]].
  destruct (np_getitem (y2 (cartesian G y)) i);
    [|split; [intros _; apply N4; reflexivity|reflexivity]].
  split; [discriminate|].
  intros Hout; apply N1 in Hout; discriminate.
Qed.

Lemma flat_map_all_skipped (ns s i : Z) (xy : Cartesian) (js : list Z) :
  (forall j, In j js -> i - (ns - j) * s < 0) ->
  flat_map (drawn_at ns s i xy) js = [].
Proof.
  induction js as [|j js IH]; intros Hall; [reflexivity|].
  cbn [flat_map].
  rewrite drawn_at_skipped by (apply Hall; left; reflexivity).
  apply IH; intros k Hk; apply Hall; right; exact Hk.
Qed.

Lemma trail_before_start (ns mt : Z) (xy : Cartesian) (i : Z) :
  0 <= mt / ns -> i < 0 -> trail ns mt xy i [] = [].
Proof.
  intros Hs Hi; rewrite trail_flat_map; cbn [app].
  apply flat_map_all_skipped.
  intros j Hj; apply in_range in Hj; nia.
Qed.

Lemma make_plot_drawn (G : Globals) (y : list State) (i : Z) (st : State) :
  - Z.of_nat (length y) <= i ->
  nth_error y (Z.to_nat (if i <? 0 then i + Z.of_nat (length y) else i))
    = Some st ->
  make_plot (cartesian G y) i
  = Some ([Line2D [0%R; fst (bob1_spec G st); fst (bob2_spec G st)]
                  [0%R; snd (bob1_spec G st); snd (bob2_spec G st)] Black None;
           CirclePatch (0%R, 0%R) (r / 2)%R Black;
           CirclePatch (bob1_spec G st) r Blue;
           CirclePatch (bob2_spec G st) r Red]
          ++ trail 20 max_trail (cartesian G y) i []).
Proof.
  intros Hlo Hst.
  destruct (cartesian_lengths G y) as [Hx2 Hy2].
  assert (Hx1 : length (x1 (cartesian G y)) = length y)
    by (unfold cartesian, column0; cbn [x1]; rewrite !length_map; reflexivity).
  assert (Hy1 : length (y1 (cartesian G y)) = length y)
    by (unfold cartesian, column0; cbn [y1]; rewrite !length_map; reflexivity).
  destruct (cartesian_nth G y _ st Hst) as (H1 & H2 & H3 & H4).
  unfold make_plot.
  rewrite (np_getitem_wraps (x1 _)), (np_getitem_wraps (x2 _)),
    (np_getitem_wraps (y1 _)), (np_getitem_wraps (y2 _))
    by (rewrite ?Hx1, ?Hx2, ?Hy1, ?Hy2; exact Hlo).
  rewrite Hx1, Hx2, Hy1, Hy2, H1, H2, H3, H4.
  rewrite (trail_flat_map _ _ _ _ [_; _; _; _]), (trail_flat_map _ _ _ _ []).
  destruct (bob1_spec G st), (bob2_spec G st); reflexivity.
Qed.

(** X13: what [make_plot(i)] leaves on the axes for a frame it can
    index: the rods through the anchor and the two bobs of sample [i]
    ([i + len] for a negative [i]), the three circles, then the trail;
    and for a negative [i] the trail is empty. *)
Theorem make_plot_frame (G : Globals) (y : list State) (i : Z) (st : State) :
  - Z.of_nat (length y) <= i ->
  nth_error y (Z.to_nat (if i <? 0 then i + Z.of_nat (length y) else i))
    = Some st ->
  let b1 := bob1_spec G st in
  let b2 := bob2_spec G st in
  make_plot (cartesian G y) i
  = Some ([Line2D [0%R; fst b1; fst b2] [0%R; snd b1; snd b2] Black None;
           CirclePatch (0%R, 0%R) (r / 2)%R Black;
           CirclePatch b1 r Blue;
           CirclePatch b2 r Red]
          ++ trail 20 max_trail (cartesian G y) i []) /\
  (i < 0 -> trail 20 max_trail (cartesian G y) i [] = []).
Proof.
  intros Hlo Hst b1 b2; split.
  - apply make_plot_drawn; assumption.
  - intros Hi; apply trail_before_start; [discriminate|exact Hi].
Qed.

Lemma make_plot_frame_witness :
  - Z.of_nat (length (repeat hanging_row 50)) <= -1 /\
  trail 20 max_trail (cartesian module_globals (repeat hanging_row 50)) (-1) []
  = [].
Proof.
  assert (H : - Z.of_nat (length (repeat hanging_row 50)) <= -1)
    by discriminate.
  split; [exact H|].
  exact (proj2 (make_plot_frame module_globals (repeat hanging_row 50) (-1)
                  hanging_row H eq_refl) eq_refl).
Defined.
Lemma range_app (n k : Z) :
  0 <= k <= n ->
  range n = range k ++ map Z.of_nat (seq (Z.to_nat k) (Z.to_nat n - Z.to_nat k)).
Proof.
  intros Hk; unfold range.
  replace (Z.to_nat n) with (Z.to_nat k + (Z.to_nat n - Z.to_nat k))%nat at 1
    by lia.
  rewrite seq_app, map_app; reflexivity.
Qed.

Lemma nth_error_range (n k : Z) :
  0 <= k < n -> nth_error (range n) (Z.to_nat k) = Some k.
Proof.
  intros Hk; unfold range.
  rewrite nth_error_map, nth_error_seq.
  destruct (Nat.ltb_spec (Z.to_nat k) (Z.to_nat n)); [|lia].
  cbn [option_map]; f_equal; lia.
Qed.

Lemma trail_exact_count (ns mt : Z) (xy : Cartesian) (i : Z) :
  0 < ns -> 0 < mt / ns -> 0 <= i ->
  Z.of_nat (length (trail ns mt xy i [])) = Z.min ns (i / (mt / ns)).
Proof.
  intros Hns Hs Hi.
  rewrite trail_flat_map; cbn [app].
  set (s := mt / ns) in *.
  pose proof (Z.div_mod i s ltac:(lia)) as Hdm.
  pose proof (Z.mod_pos_bound i s Hs) as Hmod.
  assert (Hq : 0 <= i / s) by (apply Z.div_pos; lia).
  set (k := Z.max 0 (ns - i / s)).
  rewrite (range_app ns k) by lia.
  rewrite flat_map_app, length_app.
  rewrite flat_map_all_skipped, flat_map_all_drawn.
  - cbn [length]; rewrite length_map, length_seq; lia.
  - intros j Hj; apply in_map_iff in Hj; destruct Hj as (m & <- & Hm).
    apply in_seq in Hm; nia.
  - intros j Hj; apply in_range in Hj; nia.
Qed.

(** X14: the number of trail segments at a frame [i >= 0] is
    [min(ns, i // s)] with [s = max_trail // ns >= 1]: none at the first
    [s] frames, then one more every [s] frames up to [ns]; a negative
    frame has none.  With [make_plot]'s [ns = 20] and [s = 2] that is
    [min(20, i // 2)]. *)
Theorem trail_segments_grow (ns mt : Z) (xy : Cartesian) (i : Z) :
  0 < ns -> 0 < mt / ns ->
  (0 <= i ->
   Z.of_nat (length (trail ns mt xy i [])) = Z.min ns (i / (mt / ns))) /\
  (i < 0 -> trail ns mt xy i [] = []) /\
  (0 <= i ->
   Z.of_nat (length (trail 20 max_trail xy i [])) = Z.min 20 (i / 2)).
Proof.
  intros Hns Hs.
  split; [apply trail_exact_count; assumption|].
  split; [apply trail_before_start; lia|].
  intros Hi; apply (trail_exact_count 20 max_trail xy i); [reflexivity|reflexivity|exact Hi].
Qed.

Lemma trail_segments_grow_witness :
  0 < 20 /\ Z.of_nat (length (trail 20 max_trail still_xy 7 [])) = 3.
Proof.
  assert (H : 0 < 20) by reflexivity.
  assert (Hs : 0 < max_trail / 20) by reflexivity.
  split; [exact H|].
  exact (proj1 (trail_segments_grow 20 max_trail still_xy 7 H Hs)
           ltac:(discriminate)).
Defined.

(** X15: with at least 500 samples every frame the animation asks for is
    drawn without an index error, and frame [k] leaves [4 + min(20, k // 2)]
    artists on the axes: the rods, three circles and the trail. *)
Theorem animation_frames_drawn (G : Globals) (y : list State) :
  frames <= Z.of_nat (length y) ->
  length (animation_frames (cartesian G y)) = 500%nat /\
  forall k, 0 <= k < frames ->
    exists artists,
      nth_error (animation_frames (cartesian G y)) (Z.to_nat k)
        = Some (Some artists) /\
      Z.of_nat (length artists) = 4 + Z.min 20 (k / 2).
Proof.
  intros Hlen; unfold animation_frames.
  split; [rewrite length_map, length_range; reflexivity|].
  intros k Hk.
  rewrite nth_error_map, (nth_error_range frames k Hk); cbn [option_map].
  destruct (nth_error y (Z.to_nat k)) as [st|] eqn:Hst;
    [|apply nth_error_None in Hst; lia].
  assert (Hst' : nth_error y (Z.to_nat (if k <? 0
                                        then k + Z.of_nat (length y) else k))
                 = Some st).
  { destruct (Z.ltb_spec k 0); [lia|exact Hst]. }
  pose proof (make_plot_drawn G y k st ltac:(lia) Hst') as Hplot.
  eexists; split; [f_equal; exact Hplot|].
  rewrite length_app; cbn [length].
  pose proof (trail_exact_count 20 max_trail (cartesian G y) k
                eq_refl eq_refl ltac:(lia)) as Hcount.
  change (max_trail / 20) with 2 in Hcount; lia.
Qed.

Lemma animation_frames_drawn_witness :
  frames <= Z.of_nat (length (repeat hanging_row 500)) /\
  length (animation_frames (cartesian module_globals (repeat hanging_row 500)))
  = 500%nat.
Proof.
  assert (H : frames <= Z.of_nat (length (repeat hanging_row 500))).
  { rewrite repeat_length; discriminate. }
  split; [exact H|].
  exact (proj1 (animation_frames_drawn module_globals
                  (repeat hanging_row 500) H)).
Defined.
Lemma range_last (n : Z) : 0 < n -> range n = range (n - 1) ++ [n - 1].
Proof.
  intros Hn; rewrite (range_app n (n - 1)) by lia; f_equal.
  replace (Z.to_nat n - Z.to_nat (n - 1))%nat with 1%nat by lia.
  cbn [seq map]; f_equal; lia.
Qed.

Lemma trail_last (ns mt : Z) (xy : Cartesian) (i : Z) :
  0 < ns -> 0 <= mt / ns -> mt / ns <= i ->
  trail ns mt xy i []
  = flat_map (drawn_at ns (mt / ns) i xy) (range (ns - 1))
    ++ [Line2D (py_slice (x2 xy) (i - mt / ns) (i + 1))
               (py_slice (y2 xy) (i - mt / ns) (i + 1))
               Red (Some ((IZR (ns - 1) / IZR ns) ^ 2)%R)].
Proof.
  intros Hns Hs Hi.
  rewrite trail_flat_map; cbn [app].
  rewrite (range_last ns Hns), flat_map_app; cbn [flat_map].
  rewrite app_nil_r, drawn_at_emitted by lia.
  replace (i - (ns - (ns - 1)) * (mt / ns)) with (i - mt / ns) by ring.
  replace (i - mt / ns + mt / ns + 1) with (i + 1) by ring.
  reflexivity.
Qed.

(** X16: from frame [s] on the trail reaches the bob: the last line
    drawn runs through the samples [i-s .. i] of the second bob, with
    [alpha = ((ns-1)/ns)^2], and its last point is the sample of frame
    [i], where the red circle is. *)
Theorem trail_ends_at_bob (G : Globals) (y : list State) (ns mt i : Z) :
  let xy := cartesian G y in
  let s := mt / ns in
  0 < ns -> 0 <= mt -> s <= i < Z.of_nat (length y) ->
  exists before,
    trail ns mt xy i []
    = before ++ [Line2D (py_slice (x2 xy) (i - s) (i + 1))
                        (py_slice (y2 xy) (i - s) (i + 1))
                        Red (Some ((IZR (ns - 1) / IZR ns) ^ 2)%R)] /\
    covers (x2 xy) (py_slice (x2 xy) (i - s) (i + 1)) (i - s) i /\
    covers (y2 xy) (py_slice (y2 xy) (i - s) (i + 1)) (i - s) i /\
    nth_error (py_slice (x2 xy) (i - s) (i + 1)) (Z.to_nat s)
      = np_getitem (x2 xy) i /\
    nth_error (py_slice (y2 xy) (i - s) (i + 1)) (Z.to_nat s)
      = np_getitem (y2 xy) i.
Proof.
  intros xy s Hns Hmt Hi.
  assert (Hs : 0 <= s) by (apply Z.div_pos; lia).
  destruct (cartesian_lengths G y) as [Hx2 Hy2]; fold xy in Hx2, Hy2.
  exists (flat_map (drawn_at ns s i xy) (range (ns - 1))).
  split.
  { apply trail_last; lia. }
  pose proof (py_slice_covers (x2 xy) (i - s) s ltac:(lia) Hs ltac:(lia)) as Cx.
  pose proof (py_slice_covers (y2 xy) (i - s) s ltac:(lia) Hs ltac:(lia)) as Cy.
  replace (i - s + s + 1) with (i + 1) in Cx, Cy by ring.
  replace (i - s + s) with i in Cx, Cy by ring.
  split; [exact Cx|]. split; [exact Cy|].
  rewrite !np_getitem_nonneg by lia.
  destruct Cx as [Lx Nx], Cy as [Ly Ny].
  destruct (Nx (Z.to_nat s) ltac:(lia)) as [-> _].
  destruct (Ny (Z.to_nat s) ltac:(lia)) as [-> _].
  split; f_equal; lia.
Qed.

Lemma trail_ends_at_bob_witness :
  0 < 20 /\
  exists before,
    trail 20 max_trail still_xy 49 []
    = before ++ [Line2D (py_slice (x2 still_xy) (49 - max_trail / 20) (49 + 1))
                        (py_slice (y2 still_xy) (49 - max_trail / 20) (49 + 1))
                        Red (Some ((IZR (20 - 1) / IZR 20) ^ 2)%R)].
Proof.
  assert (H0 : 0 < 20) by reflexivity.
  assert (H1 : 0 <= max_trail) by discriminate.
  assert (H2 : max_trail / 20 <= 49 < Z.of_nat (length (repeat hanging_row 50)))
    by (split; [discriminate|reflexivity]).
  split; [exact H0|].
  destruct (trail_ends_at_bob module_globals (repeat hanging_row 50)
              20 max_trail 49 H0 H1 H2) as (before & Htrail & _).
  exists before; exact Htrail.
Defined.

Lemma alpha_in_unit (ns j : Z) :
  0 <= j < ns -> (0 <= (IZR j / IZR ns) ^ 2 < 1)%R.
Proof.
  intros [Hj Hns].
  assert (Hn : (0 < IZR ns)%R) by (apply IZR_lt; lia).
  apply IZR_le in Hj; apply IZR_lt in Hns.
  assert (Hq : (0 <= IZR j / IZR ns < 1)%R).
  { split.
    - apply Rmult_le_pos; [exact Hj|].
      apply Rlt_le, Rinv_0_lt_compat; exact Hn.
    - apply Rmult_lt_reg_r with (IZR ns); [assumption|].
      unfold Rdiv; rewrite Rmult_assoc, Rinv_l by lra; lra. }
  split; [apply pow2_ge_0|nra].
Qed.

(** X17: at a frame inside the trajectory no slice of the trail is cut
    short and no fade is out of range: every artist of the trail is a
    red line through exactly [s+1] points with [0 <= alpha < 1]. *)
Theorem trail_lines_are_whole (G : Globals) (y : list State) (ns mt i : Z)
    (a : Artist) :
  let xy := cartesian G y in
  let s := mt / ns in
  0 < ns -> 0 <= mt -> i < Z.of_nat (length y) ->
  In a (trail ns mt xy i []) ->
  exists xs ys alpha,
    a = Line2D xs ys Red (Some alpha) /\
    Z.of_nat (length xs) = s + 1 /\
    Z.of_nat (length ys) = s + 1 /\
    (0 <= alpha < 1)%R.
Proof.
  intros xy s Hns Hmt Hi Hin.
  assert (Hs : 0 <= s) by (apply Z.div_pos; lia).
  destruct (cartesian_lengths G y) as [Hx2 Hy2]; fold xy in Hx2, Hy2.
  rewrite trail_flat_map in Hin; cbn [app] in Hin; fold s in Hin.
  apply in_flat_map in Hin; destruct Hin as (j & Hj & Hin).
  apply in_range in Hj.
  destruct (Z.lt_ge_cases (i - (ns - j) * s) 0) as [Hneg|Hpos].
  - rewrite drawn_at_skipped in Hin by exact Hneg; destruct Hin.
  - rewrite drawn_at_emitted in Hin by exact Hpos.
    destruct Hin as [<-|[]].
    do 3 eexists; split; [reflexivity|].
    assert (Htop : i - (ns - j) * s + s + 1 <= Z.of_nat (length y)) by nia.
    rewrite !length_py_slice by lia.
    split; [lia|]. split; [lia|].
    apply alpha_in_unit; lia.
Qed.

Lemma trail_lines_are_whole_witness :
  0 < 20 /\
  exists xs ys alpha,
    Line2D (py_slice (x2 still_xy) (49 - max_trail / 20) (49 + 1))
           (py_slice (y2 still_xy) (49 - max_trail / 20) (49 + 1))
           Red (Some ((IZR (20 - 1) / IZR 20) ^ 2)%R)
    = Line2D xs ys Red (Some alpha) /\
    Z.of_nat (length xs) = max_trail / 20 + 1.
Proof.
  assert (H0 : 0 < 20) by reflexivity.
  assert (H1 : 0 <= max_trail) by discriminate.
  assert (H2 : 49 < Z.of_nat (length (repeat hanging_row 50))) by reflexivity.
  split; [exact H0|].
  pose proof (trail_last 20 max_trail still_xy 49 H0
                ltac:(discriminate) ltac:(discriminate)) as Hlast.
  assert (Hin : In (Line2D (py_slice (x2 still_xy) (49 - max_trail / 20) (49 + 1))
                           (py_slice (y2 still_xy) (49 - max_trail / 20) (49 + 1))
                           Red (Some ((IZR (20 - 1) / IZR 20) ^ 2)%R))
                   (trail 20 max_trail still_xy 49 [])).
  { rewrite Hlast; apply in_or_app; right; left; reflexivity. }
  destruct (trail_lines_are_whole module_globals (repeat hanging_row 50)
              20 max_trail 49 _ H0 H1 H2 Hin)
    as (xs & ys & alpha & Heq & Hxs & _).
  exists xs, ys, alpha; split; [exact Heq|exact Hxs].
Defined.
(** ** Slices *)

Lemma firstn_add {A : Type} (p q : nat) (l : list A) :
  firstn (p + q) l = firstn p l ++ firstn q (skipn p l).
Proof.
  revert l; induction p as [|p IH]; intros l; [reflexivity|].
  destruct l as [|x l]; [cbn; rewrite firstn_nil; reflexivity|].
  cbn [Nat.add firstn skipn app]; rewrite IH; reflexivity.
Qed.

Lemma py_slice_app {A : Type} (l : list A) (a b c : Z) :
  0 <= a <= b -> b <= c ->
  py_slice l a b ++ py_slice l b c = py_slice l a c.
Proof.
  intros Hab Hbc; unfold py_slice.
  rewrite !slice_bound_nonneg by lia.
  set (n := Z.of_nat (length l)).
  replace (Z.to_nat (Z.min c n - Z.min a n))
    with (Z.to_nat (Z.min b n - Z.min a n)
          + Z.to_nat (Z.min c n - Z.min b n))%nat by lia.
  rewrite firstn_add, skipn_skipn; do 3 f_equal; lia.
Qed.

Lemma py_slice_single {A : Type} (l : list A) (a : Z) (x : A) :
  0 <= a -> nth_error l (Z.to_nat a) = Some x -> py_slice l a (a + 1) = [x].
Proof.
  intros Ha Hx.
  assert (Hlen : a < Z.of_nat (length l)).
  { assert (H : nth_error l (Z.to_nat a) <> None) by (rewrite Hx; discriminate).
    apply nth_error_Some in H; lia. }
  pose proof (length_py_slice l a (a + 1) ltac:(lia) ltac:(lia)) as Hl.
  pose proof (nth_error_py_slice l a (a + 1) 0 ltac:(lia)) as Hn.
  destruct (Z.ltb_spec (Z.of_nat 0) (a + 1 - a)); [|lia].
  rewrite Nat.add_0_r, Hx in Hn.
  destruct (py_slice l a (a + 1)) as [|z [|z' rest]]; cbn in Hl, Hn; try lia.
  injection Hn as ->; reflexivity.
Qed.

(** X18: a slice never raises and never invents or reorders elements:
    whatever the bounds it is a contiguous piece of the array.  With
    [0 <= a <= b <= c] the slices [a:b] and [b:c] joined are the slice
    [a:c]; a slice from [0] to the length or beyond is the whole array,
    and one that starts at or past the end is empty. *)
Theorem py_slice_pieces {A : Type} (l : list A) (a b c : Z) :
  (exists before after, l = before ++ py_slice l a b ++ after) /\
  (0 <= a <= b -> b <= c ->
   py_slice l a b ++ py_slice l b c = py_slice l a c) /\
  (Z.of_nat (length l) <= b -> py_slice l 0 b = l) /\
  (Z.of_nat (length l) <= a -> 0 <= b -> py_slice l a b = []).
Proof.
  split; [|split; [|split]].
  - unfold py_slice.
    set (lo := Z.to_nat (slice_bound _ a)); set (n := Z.to_nat (_ - _)).
    exists (firstn lo l), (skipn n (skipn lo l)).
    rewrite (firstn_skipn n), (firstn_skipn lo); reflexivity.
  - apply py_slice_app.
  - intros Hb; unfold py_slice.
    rewrite !slice_bound_nonneg by lia.
    rewrite Z.min_r, Z.min_l by lia.
    cbn [Z.to_nat skipn]; rewrite Z.sub_0_r, Nat2Z.id; apply firstn_all.
  - intros Ha Hb; unfold py_slice.
    rewrite !slice_bound_nonneg by lia.
    rewrite skipn_all2 by lia; apply firstn_nil.
Qed.

Lemma py_slice_pieces_witness :
  0 <= 1 <= 3 /\
  py_slice (range 6) 1 3 ++ py_slice (range 6) 3 5 = py_slice (range 6) 1 5.
Proof.
  assert (H : 0 <= 1 <= 3) by (split; discriminate).
  split; [exact H|].
  exact (proj1 (proj2 (py_slice_pieces (range 6) 1 3 5)) H ltac:(discriminate)).
Defined.

(** ** [animate] *)

Lemma length_np_linspace (start stop : R) (num : Z) :
  length (np_linspace start stop num) = Z.to_nat num.
Proof. unfold np_linspace; rewrite length_map; apply length_range. Qed.

Lemma nth_error_np_linspace (start stop : R) (num k : Z) :
  0 <= k < num ->
  nth_error (np_linspace start stop num) (Z.to_nat k)
  = Some (start + IZR k * ((stop - start) / IZR (num - 1)))%R.
Proof.
  intros Hk; unfold np_linspace.
  rewrite nth_error_map, (nth_error_range num k Hk); reflexivity.
Qed.

Lemma np_linspace_ends (start stop : R) (num : Z) :
  1 < num ->
  nth_error (np_linspace start stop num) 0 = Some start /\
  nth_error (np_linspace start stop num) (Z.to_nat (num - 1)) = Some stop.
Proof.
  intros Hnum.
  assert (Hn : (IZR (num - 1) <> 0)%R) by (apply not_0_IZR; lia).
  split.
  - change 0%nat with (Z.to_nat 0).
    rewrite nth_error_np_linspace by lia; f_equal; ring.
  - rewrite nth_error_np_linspace by lia; f_equal; field; exact Hn.
Qed.

(** X19: [animate] draws the same wave every 100 frames: over the reals
    [animate(i + 100*k)] is [animate(i)] for every integer [k].  Its two
    arrays have 1000 entries each, the abscissas run from 0 to 2, and
    every ordinate lies in [-1, 1]. *)
Theorem animate_period (i k : Z) :
  animate (i + 100 * k) = animate i /\
  length (fst (animate i)) = 1000%nat /\
  length (snd (animate i)) = 1000%nat /\
  nth_error (fst (animate i)) 0 = Some 0%R /\
  nth_error (fst (animate i)) 999 = Some 2%R /\
  (forall v, In v (snd (animate i)) -> (-1 <= v <= 1)%R).
Proof.
  unfold animate; cbn [fst snd].
  split.
  { f_equal; apply map_ext; intros x.
    rewrite <- (sin_shift (2 * PI * (x - 0.01 * IZR i)) (- k)).
    f_equal; rewrite plus_IZR, mult_IZR, opp_IZR; lra. }
  rewrite length_map, length_np_linspace.
  split; [reflexivity|]. split; [reflexivity|].
  destruct (np_linspace_ends 0 2 1000 eq_refl) as [H0 H1].
  split; [exact H0|]. split; [exact H1|].
  intros v Hv; apply in_map_iff in Hv; destruct Hv as (x & <- & _).
  apply SIN_bound.
Qed.
(** ** The trail as one path *)

Lemma py_slice_removelast {A : Type} (l : list A) (a b : Z) :
  0 <= a <= b -> b < Z.of_nat (length l) ->
  removelast (py_slice l a (b + 1)) = py_slice l a b.
Proof.
  intros Hab Hb.
  destruct (nth_error l (Z.to_nat b)) as [x|] eqn:Hx;
    [|apply nth_error_None in Hx; lia].
  rewrite <- (py_slice_app l a b (b + 1)) by lia.
  rewrite (py_slice_single l b x) by (lia || exact Hx).
  apply removelast_last.
Qed.

Lemma joined_app (l l' : list Artist) : joined (l ++ l') = joined l ++ joined l'.
Proof. unfold joined; apply flat_map_app. Qed.

Lemma joined_run (G : Globals) (y : list State) (ns s i : Z) (n a : nat) :
  0 <= s -> i < Z.of_nat (length y) ->
  0 <= i - (ns - Z.of_nat a) * s ->
  Z.of_nat a + Z.of_nat n <= ns ->
  joined (flat_map (drawn_at ns s i (cartesian G y)) (map Z.of_nat (seq a n)))
  = py_slice (bob2 (cartesian G y))
             (i - (ns - Z.of_nat a) * s)
             (i - (ns - Z.of_nat a - Z.of_nat n) * s).
Proof.
  intros Hs Hi; revert a; induction n as [|n IH]; intros a Ha Hn.
  - cbn [seq map flat_map]; unfold joined; cbn [flat_map].
    replace (ns - Z.of_nat a - Z.of_nat 0) with (ns - Z.of_nat a) by lia.
    unfold py_slice; rewrite Z.sub_diag; reflexivity.
  - cbn [seq map flat_map]; rewrite joined_app.
    rewrite IH by nia.
    rewrite drawn_at_emitted by exact Ha.
    unfold joined at 1; cbn [flat_map segment_of points]; rewrite app_nil_r.
    destruct (cartesian_lengths G y) as [Hx2 Hy2].
    rewrite py_slice_combine by (rewrite Hx2, Hy2; reflexivity).
    fold (bob2 (cartesian G y)).
    rewrite py_slice_removelast
      by (rewrite ?length_bob2; nia).
    replace (i - (ns - Z.of_nat (S a)) * s)
      with (i - (ns - Z.of_nat a) * s + s) by lia.
    replace (i - (ns - Z.of_nat (S a) - Z.of_nat n) * s)
      with (i - (ns - Z.of_nat a - Z.of_nat (S n)) * s) by lia.
    apply py_slice_app; nia.
Qed.

(** X20: the trail is one unbroken stretch of the second bob's path that
    ends at the current frame: its lines joined end to end, followed by
    the sample of frame [i], are the [m*s + 1] samples
    [bob2[i - m*s : i + 1]], where [m = min(ns, i // s)] is the number
    of lines. *)
Theorem trail_is_one_path (G : Globals) (y : list State) (ns mt i : Z)
    (p : R * R) :
  let xy := cartesian G y in
  let s := mt / ns in
  let m := Z.min ns (i / s) in
  0 < ns -> 0 < s -> 0 <= i ->
  nth_error (bob2 xy) (Z.to_nat i) = Some p ->
  joined (trail ns mt xy i []) ++ [p] = py_slice (bob2 xy) (i - m * s) (i + 1) /\
  Z.of_nat (length (joined (trail ns mt xy i []) ++ [p])) = m * s + 1.
Proof.
  intros xy s m Hns Hs Hi Hp.
  assert (Hlen : i < Z.of_nat (length y)).
  { assert (H : nth_error (bob2 xy) (Z.to_nat i) <> None)
      by (rewrite Hp; discriminate).
    apply nth_error_Some in H; subst xy; rewrite length_bob2 in H; lia. }
  pose proof (Z.div_mod i s ltac:(lia)) as Hdm.
  pose proof (Z.mod_pos_bound i s Hs) as Hmod.
  assert (Hq : 0 <= i / s) by (apply Z.div_pos; lia).
  assert (Hpath : joined (trail ns mt xy i []) ++ [p]
                  = py_slice (bob2 xy) (i - m * s) (i + 1)).
  { rewrite trail_flat_map; cbn [app]; fold s.
    set (k := Z.max 0 (ns - i / s)).
    rewrite (range_app ns k) by lia.
    rewrite flat_map_app, flat_map_all_skipped
      by (intros j Hj; apply in_range in Hj; nia).
    cbn [app]; subst xy.
    rewrite (joined_run G y ns s i _ (Z.to_nat k)) by nia.
    replace (i - (ns - Z.of_nat (Z.to_nat k)
                  - Z.of_nat (Z.to_nat ns - Z.to_nat k)) * s) with i by nia.
    replace (i - (ns - Z.of_nat (Z.to_nat k)) * s) with (i - m * s) by nia.
    rewrite <- (py_slice_single (bob2 (cartesian G y)) i p) by (lia || exact Hp).
    apply py_slice_app; nia. }
  split; [exact Hpath|].
  rewrite Hpath, length_py_slice; [lia|nia|].
  subst xy; rewrite length_bob2; lia.
Qed.

Lemma trail_is_one_path_witness :
  0 < 20 /\
  Z.of_nat (length (joined (trail 20 max_trail still_xy 7 [])
                    ++ [bob2_spec module_globals hanging_row]))
  = Z.min 20 (7 / (max_trail / 20)) * (max_trail / 20) + 1.
Proof.
  assert (H0 : 0 < 20) by reflexivity.
  assert (Hs : 0 < max_trail / 20) by reflexivity.
  assert (Hi : 0 <= 7) by discriminate.
  assert (Hp : nth_error (bob2 (cartesian module_globals (repeat hanging_row 50)))
                         (Z.to_nat 7)
               = Some (bob2_spec module_globals hanging_row))
    by (rewrite bob2_cartesian; reflexivity).
  split; [exact H0|].
  exact (proj2 (trail_is_one_path module_globals (repeat hanging_row 50)
                  20 max_trail 7 _ H0 Hs Hi Hp)).
Defined.
